(** * NVIDIA k8s-dra-driver: the node plugin's driver (cmd/nvidia-dra-plugin/driver.go)

    A shallow embedding of [driver.go] and the properties of its
    prepare / unprepare / reconciliation logic.

    How the Go code is read:
    - A method of [*driver] is a program ([Prog]) over the calls it makes on
      its collaborators: the record client [d.nasclient], the device state
      [d.state], the mutex embedded in the driver, and the shared record mirror
      [d.nascrd].  The collaborators are not part of [driver.go]; they are an
      interface ([Collaborators]) that any world can implement.
    - Go's [(value, error)] results are pairs whose second component is an
      [option error] ([None] is [nil]).
    - Goroutines started by a cleanup pass are a pool of programs run under an
      explicit schedule, one collaborator call at a time.
    - [klog] output and the back-off pause inside [retry.RetryOnConflict] are
      not modelled.
    - [Model] is one world that implements the collaborators as the
      specification describes them; it serves where a property depends on
      what the record client and the device state do. *)

From stdpp Require Import gmap strings list fin_maps pretty.

(** ** Errors *)

(** [metav1.StatusReason], as far as the driver distinguishes reasons. *)
Inductive StatusReason :=
| StatusReasonConflict
| StatusReasonNotFound
| StatusReasonServiceUnavailable.

(** A value printed by a [%v] verb of [fmt.Errorf]. *)
Inductive fmt_value :=
| FmtString (s : string)
| FmtInt (n : nat).

(** Go [error] values met in [driver.go]: API status errors, plain errors of
    the collaborators, [fmt.Errorf format args...] without a [%w] verb
    ([Errorf]) and with one ([Errorw], which wraps [cause]). *)
Inductive error :=
| StatusError (reason : StatusReason) (message : string)
| ErrorString (message : string)
| Errorf (format : string) (args : list fmt_value)
| Errorw (format : string) (args : list fmt_value) (cause : error).

(** [apierrors.IsConflict]: the reason of the status error, looked up through
    [%w] wrappers. *)
Fixpoint IsConflict (err : error) : bool :=
  match err with
  | StatusError StatusReasonConflict _ => true
  | StatusError _ _ => false
  | ErrorString _ => false
  | Errorf _ _ => false
  | Errorw _ _ e => IsConflict e
  end.

(** ** The allocation record (package nascrd) *)

(** Modelled from the spec: the type declarations of package [nascrd] are not
    in [driver.go].  Section 3 of the specification gives the record as
    [Name], [ResourceVersion], [Status], [AllocatedClaims] (claim UID to
    allocation details) and [PreparedClaims] (claim UID to device
    identifiers).  Allocation details are the list of devices the control
    plane picked; Go's zero value is the empty list. *)
Definition AllocatedDevices := list string.
Definition PreparedDevices := list string.
Definition AllocatedDevices_zero : AllocatedDevices := [].

Record NodeAllocationStateSpec := {
  AllocatedClaims : gmap string AllocatedDevices;
  PreparedClaims : gmap string PreparedDevices;
}.

Record NodeAllocationState := {
  Name : string;
  ResourceVersion : string;
  Spec : NodeAllocationStateSpec;
  Status : string;
}.

Record NodeAllocationStateList := {
  ListResourceVersion : string;
  Items : list NodeAllocationState;
}.

Definition NodeAllocationStateStatusReady : string := "Ready".
Definition NodeAllocationStateStatusNotReady : string := "NotReady".

(** [m[k]] of a Go map: the zero value when the key is missing. *)
Definition go_index (m : gmap string AllocatedDevices) (k : string) : AllocatedDevices :=
  default AllocatedDevices_zero (m !! k).

(** ** List and watch (packages metav1, watch) *)

Record ListOptions := {
  Watch : bool;
  OptResourceVersion : string;
  FieldSelector : string;
  TimeoutSeconds : option Z;
}.

Inductive EventType := Added | Modified | Deleted | Bookmark | Error.

Global Instance EventType_eq_dec : EqDecision EventType.
Proof. solve_decision. Defined.

(** [runtime.Object] carried by a watch event: the record, or something that
    the type assertion on [event.Object] in the watch loop rejects. *)
Inductive Object :=
| ObjNodeAllocationState (nas : NodeAllocationState)
| ObjStatus (message : string).

Record Event := {
  Type_ : EventType;
  Object_ : Object;
}.

(** ** RPC messages (package drapbv1) *)

Record NodePrepareResourceRequest := { ClaimUid : string }.
Record NodePrepareResourceResponse := { CdiDevices : list string }.
Record NodeUnprepareResourceRequest := { UnprepareClaimUid : string }.
Inductive NodeUnprepareResourceResponse := EmptyNodeUnprepareResourceResponse.

(** Go's [*driver].  Its fields [nascrd], [nasclient] and [state] are
    pointers to objects that live in the world, so the value carries no data
    of its own; [None] is the nil pointer. *)
Inductive driver := Driver.

Definition CleanupTimeoutSecondsOnError : nat := 5.

(** ** Programs over collaborator calls *)

(** The calls a driver method makes, indexed by what they return. *)
Inductive call : Type → Type :=
| mu_Lock : call unit                                   (* d.Lock() *)
| mu_Unlock : call unit                                 (* d.Unlock() *)
| load_nascrd : call NodeAllocationState                (* read of *d.nascrd *)
| nasclient_GetOrCreate : call (option error)
| nasclient_Get : call (option error)
| nasclient_Update (spec : NodeAllocationStateSpec) : call (option error)
| nasclient_UpdateStatus (status : string) : call (option error)
| nasclient_List (opts : ListOptions) : call (NodeAllocationStateList * option error)
| nasclient_Watch (opts : ListOptions) : call (list Event * option error)
| watcher_Stop : call unit
| NewDeviceState : call (option error)
| state_Prepare (claimUID : string) (allocation : AllocatedDevices) : call (list string * option error)
| state_Unprepare (claimUID : string) : call (option error)
| state_GetUpdatedSpec : call NodeAllocationStateSpec    (* d.state.GetUpdatedSpec(&d.nascrd.Spec) *)
| cdi_GetClaimDevices (claimUID : string) : call (list string)
| go_CleanupStaleStateContinuously : call unit          (* go d.CleanupStaleStateContinuously(ctx) *)
| time_Sleep (seconds : nat) : call unit.

Inductive Prog (E : Type → Type) (A : Type) : Type :=
| Ret (a : A)
| Do {X : Type} (e : E X) (k : X → Prog E A).
Global Arguments Ret {E A} a.
Global Arguments Do {E A X} e k.

Fixpoint bind {E A B} (p : Prog E A) (f : A → Prog E B) : Prog E B :=
  match p with
  | Ret a => f a
  | Do e k => Do e (λ x, bind (k x) f)
  end.

Definition perform {E X} (e : E X) : Prog E X := Do e Ret.

Declare Scope prog_scope.
Delimit Scope prog_scope with prog.
Notation "x ← p ; q" := (bind p (λ x, q))
  (at level 20, p at level 100, q at level 200, right associativity,
   format "x  ←  p ;  '/' q") : prog_scope.
Notation "' pat ← p ; q" := (bind p (λ x, match x with pat => q end))
  (at level 20, pat pattern, p at level 100, q at level 200, right associativity,
   format "' pat  ←  p ;  '/' q") : prog_scope.
Notation "p ;; q" := (bind p (λ _, q))
  (at level 100, q at level 200, right associativity) : prog_scope.
Open Scope prog_scope.

(** Running a program: every call is answered by a handler that also yields
    the events the call leaves in the trace. *)
Fixpoint run {E : Type → Type} {St Tr : Type}
    (h : ∀ X, E X → St → X * St * list Tr) {A} (p : Prog E A) (s : St)
    : A * St * list Tr :=
  match p with
  | Ret a => (a, s, [])
  | Do e k =>
      let '(x, s1, t1) := h _ e s in
      let '(a, s2, t2) := run h (k x) s1 in
      (a, s2, t1 ++ t2)
  end.

(** ** k8s.io/client-go/util/retry *)

(** [retry.OnError] over [wait.ExponentialBackoff]: [fn] runs at most
    [steps] times; it stops at the first success or the first error that is
    not retriable; when the attempts are used up the last error is returned.
    [S] is the state of the variables the closure captures. *)
Fixpoint OnError {E S} (steps : nat) (retriable : error → bool)
    (fn : S → Prog E (S * option error)) (s : S) (lastErr : option error)
    : Prog E (S * option error) :=
  match steps with
  | 0 => Ret (s, lastErr)
  | S n =>
      '(s', err) ← fn s;
      match err with
      | None => Ret (s', None)
      | Some e =>
          if retriable e then OnError n retriable fn s' (Some e)
          else Ret (s', Some e)
      end
  end.

(** [retry.DefaultRetry.Steps]. *)
Definition DefaultRetry : nat := 5.

Definition RetryOnConflict {E S} (backoff : nat)
    (fn : S → Prog E (S * option error)) (s : S) : Prog E (S * option error) :=
  OnError backoff IsConflict fn s None.

(** ** The collaborators *)

(** The world a driver runs in: the record mirror [d.nascrd] (shared with the
    client, which refreshes it), the record client and the device state.
    Sections 2 and 6 of the specification list these capabilities; their code
    is outside [driver.go], so every theorem about the driver's own logic
    holds for all implementations of this interface. *)
Class Collaborators (W : Type) := {
  nascrd : W → NodeAllocationState;
  GetOrCreate : W → option error * W;
  Get : W → option error * W;
  Update : NodeAllocationStateSpec → W → option error * W;
  UpdateStatus : string → W → option error * W;
  List : ListOptions → W → (NodeAllocationStateList * option error) * W;
  OpenWatch : ListOptions → W → (list Event * option error) * W;
  Stop : W → W;
  InitDeviceState : W → option error * W;
  Prepare_ : string → AllocatedDevices → W → (list string * option error) * W;
  Unprepare_ : string → W → option error * W;
  GetUpdatedSpec : W → NodeAllocationStateSpec * W;
  GetClaimDevices : string → W → list string * W;
}.

(** What one call does to the world.  The mutex, the [go] statement and
    [time.Sleep] leave the collaborators' state alone; reading the mirror
    returns it. *)
Definition exec `{Collaborators W} {X} (c : call X) : W → X * W :=
  match c in call X return W → X * W with
  | mu_Lock => λ w, (tt, w)
  | mu_Unlock => λ w, (tt, w)
  | load_nascrd => λ w, (nascrd w, w)
  | nasclient_GetOrCreate => GetOrCreate
  | nasclient_Get => Get
  | nasclient_Update spec => Update spec
  | nasclient_UpdateStatus status => UpdateStatus status
  | nasclient_List opts => List opts
  | nasclient_Watch opts => OpenWatch opts
  | watcher_Stop => λ w, (tt, Stop w)
  | NewDeviceState => InitDeviceState
  | state_Prepare claimUID allocation => Prepare_ claimUID allocation
  | state_Unprepare claimUID => Unprepare_ claimUID
  | state_GetUpdatedSpec => GetUpdatedSpec
  | cdi_GetClaimDevices claimUID => GetClaimDevices claimUID
  | go_CleanupStaleStateContinuously => λ w, (tt, w)
  | time_Sleep _ => λ w, (tt, w)
  end.

(** A call together with what it returned. *)
Inductive event :=
| Ev {X : Type} (c : call X) (x : X).

Definition exec_ev `{Collaborators W} (X : Type) (c : call X) (w : W)
    : X * W * list event :=
  let '(x, w') := exec c w in (x, w', [Ev c x]).

(** Running a goroutine-free method of the driver. *)
Definition run_call `{Collaborators W} {A} (p : Prog call A) (w : W)
    : A * W * list event :=
  run exec_ev p w.

(** ** The driver's request path (driver.go, lines 47-196) *)

(** The closure that [NewDriver] hands to [retry.RetryOnConflict]; it
    captures the variable [d]. *)
Definition NewDriver_closure (d : option driver)
    : Prog call (option driver * option error) :=
  err ← perform nasclient_GetOrCreate;
  if err is Some e then Ret (d, Some e) else
  err ← perform (nasclient_UpdateStatus NodeAllocationStateStatusNotReady);
  if err is Some e then Ret (d, Some e) else
  err ← perform NewDeviceState;
  if err is Some e then Ret (d, Some e) else
  spec ← perform state_GetUpdatedSpec;
  err ← perform (nasclient_Update spec);
  if err is Some e then Ret (d, Some e) else
  err ← perform (nasclient_UpdateStatus NodeAllocationStateStatusReady);
  if err is Some e then Ret (d, Some e) else
  Ret (Some Driver, None).

Definition NewDriver : Prog call (option driver * option error) :=
  '(d, err) ← RetryOnConflict DefaultRetry NewDriver_closure None;
  if err is Some e then Ret (None, Some e) else
  perform go_CleanupStaleStateContinuously;;
  Ret (d, None).

Definition Shutdown : Prog call (option error) :=
  '(_, err) ← RetryOnConflict DefaultRetry (λ _ : unit,
      err ← perform nasclient_Get;
      if err is Some e then Ret (tt, Some e) else
      err ← perform (nasclient_UpdateStatus NodeAllocationStateStatusNotReady);
      Ret (tt, err)) tt;
  Ret err.

Definition IsPrepared (claimUID : string)
    : Prog call (bool * list string * option error) :=
  err ← perform nasclient_Get;
  if err is Some e then Ret (false, [], Some e) else
  nas ← perform load_nascrd;
  if PreparedClaims (Spec nas) !! claimUID is Some _ then
    devices ← perform (cdi_GetClaimDevices claimUID);
    Ret (true, devices, None)
  else Ret (false, [], None).

(** The closure of [Prepare]; it captures the variable [prepared]. *)
Definition Prepare_closure (claimUID : string) (prepared : list string)
    : Prog call (list string * option error) :=
  err ← perform nasclient_Get;
  if err is Some e then Ret (prepared, Some e) else
  nas ← perform load_nascrd;
  '(prepared, err) ← perform (state_Prepare claimUID
                               (go_index (AllocatedClaims (Spec nas)) claimUID));
  if err is Some e then Ret (prepared, Some e) else
  spec ← perform state_GetUpdatedSpec;
  err ← perform (nasclient_Update spec);
  if err is Some e then Ret (prepared, Some e) else
  Ret (prepared, None).

Definition Prepare (claimUID : string) : Prog call (list string * option error) :=
  '(prepared, err) ← RetryOnConflict DefaultRetry (Prepare_closure claimUID) [];
  if err is Some e then Ret ([], Some e) else
  Ret (prepared, None).

(** The closure of [Unprepare]; it captures nothing. *)
Definition Unprepare_closure (claimUID : string) (_ : unit)
    : Prog call (unit * option error) :=
  err ← perform nasclient_Get;
  if err is Some e then Ret (tt, Some e) else
  err ← perform (state_Unprepare claimUID);
  if err is Some e then Ret (tt, Some e) else
  spec ← perform state_GetUpdatedSpec;
  err ← perform (nasclient_Update spec);
  if err is Some e then Ret (tt, Some e) else
  Ret (tt, None).

Definition Unprepare (claimUID : string) : Prog call (option error) :=
  '(_, err) ← RetryOnConflict DefaultRetry (Unprepare_closure claimUID) tt;
  if err is Some e then Ret (Some e) else
  Ret None.

Definition NodePrepareResource (req : NodePrepareResourceRequest)
    : Prog call (option NodePrepareResourceResponse * option error) :=
  perform mu_Lock;;
  result ← (
    '(isPrepared, prepared, err) ← IsPrepared (ClaimUid req);
    if err is Some e then
      Ret (None, Some (Errorw "error checking if claim is already prepared: %w" [] e))
    else if isPrepared : bool then
      Ret (Some {| CdiDevices := prepared |}, None)
    else
      '(prepared, err) ← Prepare (ClaimUid req);
      if err is Some e then
        Ret (None, Some (Errorw "error preparing devices for claim %v: %w"
                           [FmtString (ClaimUid req)] e))
      else Ret (Some {| CdiDevices := prepared |}, None));
  perform mu_Unlock;;
  Ret result.

Definition NodeUnprepareResource (req : NodeUnprepareResourceRequest)
    : Prog call (option NodeUnprepareResourceResponse * option error) :=
  Ret (Some EmptyNodeUnprepareResourceResponse, None).

(** ** Goroutines of a cleanup pass *)

(** The three cleanup categories of [cleanupStaleState]; each has its own
    error channel and its own counting consumer. *)
Inductive category := ClaimAllocations | CDIFiles | MpsControlDaemonArtifacts.

Global Instance category_eq_dec : EqDecision category.
Proof. solve_decision. Defined.

(** A goroutine started under the pass's [sync.WaitGroup].  It returns the
    error it sends on its category's channel, if it sends one. *)
Abbreviation work := (Prog call (option error)).

(** One scheduling decision: goroutine [i] makes its next call.  Nothing
    happens when [i] has finished or does not exist. *)
Definition pool_step `{Collaborators W} (i : nat) (ts : list work) (w : W)
    : list work * W * list (nat * event) :=
  match ts !! i with
  | Some (Do c k) =>
      let '(x, w') := exec c w in (<[i := k x]> ts, w', [(i, Ev c x)])
  | _ => (ts, w, [])
  end.

Fixpoint run_schedule `{Collaborators W} (sched : list nat) (ts : list work) (w : W)
    : list work * W * list (nat * event) :=
  match sched with
  | [] => (ts, w, [])
  | i :: sched' =>
      let '(ts1, w1, t1) := pool_step i ts w in
      let '(ts2, w2, t2) := run_schedule sched' ts1 w1 in
      (ts2, w2, t1 ++ t2)
  end.

(** Goroutines that the schedule left unfinished run to their end, one after
    the other; [i] is the index of the first goroutine of [ts]. *)
Fixpoint drain `{Collaborators W} (i : nat) (ts : list work) (w : W)
    : list (option error) * W * list (nat * event) :=
  match ts with
  | [] => ([], w, [])
  | p :: ps =>
      let '(r, w1, t1) := run_call p w in
      let '(rs, w2, t2) := drain (S i) ps w1 in
      (r :: rs, w2, ((λ e, (i, e)) <$> t1) ++ t2)
  end.

(** The goroutines [ts] run interleaved as [sched] says, and [wg.Wait()]
    returns once every one of them is done.  Every list [sched] gives a
    complete execution, and every complete interleaving of the goroutines'
    calls is given by some list. *)
Definition run_pool `{Collaborators W} (sched : list nat) (ts : list work) (w : W)
    : list (option error) * W * list (nat * event) :=
  let '(ts1, w1, t1) := run_schedule sched ts w in
  let '(rs, w2, t2) := drain 0 ts1 w1 in
  (rs, w2, t1 ++ t2).

(** Calls of the reconciliation loop's own goroutine.  [wg_Wait units] stands
    for the goroutines that the three cleanup functions have started under
    the wait group, followed by [wg.Wait()]; it yields what every goroutine
    sent on its channel.  [enter_cleanupStaleState] is a ghost call that
    records the argument of each call of [cleanupStaleState]. *)
Inductive pass_call : Type → Type :=
| main {X : Type} (c : call X) : pass_call X
| enter_cleanupStaleState (nas : NodeAllocationState) : pass_call unit
| wg_Wait (units : list (category * work)) : pass_call (list (category * option error)).

Inductive pass_event :=
| MainEv (e : event)
| UnitEv (i : nat) (e : event)
| EnterEv (nas : NodeAllocationState).

(** The state of a run of the loop: the world, and the schedules of the
    cleanup passes still to come (an absent schedule is the empty one). *)
Definition exec_pass `{Collaborators W} (X : Type) (c : pass_call X)
    (s : W * list (list nat)) : X * (W * list (list nat)) * list pass_event :=
  match c in pass_call X return X * (W * list (list nat)) * list pass_event with
  | main c =>
      let '(x, w') := exec c s.1 in (x, (w', s.2), [MainEv (Ev c x)])
  | enter_cleanupStaleState nas => (tt, s, [EnterEv nas])
  | wg_Wait units =>
      let '(rs, w', t) := run_pool (hd [] s.2) (units.*2) s.1 in
      (zip (units.*1) rs, (w', tl s.2), (λ ie, UnitEv ie.1 ie.2) <$> t)
  end.

Definition run_pass `{Collaborators W} {A} (p : Prog pass_call A)
    (scheds : list (list nat)) (w : W) : A * (W * list (list nat)) * list pass_event :=
  run exec_pass p (w, scheds).

(** ** The reconciliation loop (driver.go, lines 198-357) *)

(** The goroutine [go func(claimUID string) {...}(claimUID)] of
    [cleanupClaimAllocations]. *)
Definition unprepare_claim (claimUID : string) : work :=
  err ← Unprepare claimUID;
  if err is Some e then
    Ret (Some (Errorw "error unpreparing resources for claim %v: %w"
                 [FmtString claimUID] e))
  else Ret None.

(** The claims for which [cleanupClaimAllocations] starts a goroutine, in
    the order in which [range nas.Spec.PreparedClaims] meets them.  Go leaves
    the order of a map's keys open; the goroutines run under an arbitrary
    schedule, so the order only numbers them. *)
Definition orphaned (nas : NodeAllocationState) : list string :=
  filter (λ claimUID, AllocatedClaims (Spec nas) !! claimUID = None)
    (map_to_list (PreparedClaims (Spec nas))).*1.

Definition cleanupClaimAllocations (nas : NodeAllocationState) : list work :=
  unprepare_claim <$> orphaned nas.

Definition cleanupCDIFiles (nas : NodeAllocationState) : list work := [].

Definition cleanupMpsControlDaemonArtifacts (nas : NodeAllocationState) : list work := [].

(** What the consumer goroutine of a category counts: the errors received on
    that category's channel. *)
Definition count_errors (cat : category) (reports : list (category * option error)) : nat :=
  length (filter (λ r, r.1 = cat ∧ is_Some r.2) reports).

Definition cleanupStaleState (nas : NodeAllocationState) : Prog pass_call (option error) :=
  perform (enter_cleanupStaleState nas);;
  let caErrors := cleanupClaimAllocations nas in
  let cdiErrors := cleanupCDIFiles nas in
  let mpsErrors := cleanupMpsControlDaemonArtifacts nas in
  reports ← perform (wg_Wait (((λ u, (ClaimAllocations, u)) <$> caErrors)
                          ++ ((λ u, (CDIFiles, u)) <$> cdiErrors)
                          ++ ((λ u, (MpsControlDaemonArtifacts, u)) <$> mpsErrors)));
  let sumErrors := count_errors ClaimAllocations reports
                   + count_errors CDIFiles reports
                   + count_errors MpsControlDaemonArtifacts reports in
  if decide (sumErrors ≠ 0) then
    Ret (Some (Errorf "encountered %v errors" [FmtInt sumErrors]))
  else Ret None.

Definition cleanupStaleStateOnce : Prog pass_call (string * option error) :=
  d_nascrd ← perform (main load_nascrd);
  let listOptions :=
    {| Watch := false; OptResourceVersion := "";
       FieldSelector := "metadata.name=" +:+ Name d_nascrd;
       TimeoutSeconds := None |} in
  '(list, err) ← perform (main (nasclient_List listOptions));
  if err is Some e then
    Ret ("", Some (Errorw "error listing allocation state: %w" [] e))
  else
  match Items list with
  | [nas] =>
      err ← cleanupStaleState nas;
      if err is Some e then Ret ("", Some e) else
      Ret (ListResourceVersion list, None)
  | items =>
      Ret ("", Some (Errorf "unexpected number of allocation state objects from list: %v"
                       [FmtInt (length items)]))
  end.

(** The body of [for event := range watcher.ResultChan()], over the events
    that the channel delivers before it is closed. *)
Fixpoint range_ResultChan (events : list Event) : Prog pass_call (option error) :=
  match events with
  | [] => Ret None
  | event :: events' =>
      if decide (Type_ event ≠ Modified) then range_ResultChan events' else
      match Object_ event with
      | ObjNodeAllocationState nas =>
          err ← cleanupStaleState nas;
          if err is Some e then Ret (Some e) else
          range_ResultChan events'
      | _ => Ret (Some (Errorf "unexpected error decoding object from watcher" []))
      end
  end.

Definition cleanupStaleStateContinuously (resourceVersion : string)
    (previousError : option error) : Prog pass_call (option error) :=
  d_nascrd ← perform (main load_nascrd);
  let watchOptions :=
    {| Watch := true; OptResourceVersion := resourceVersion;
       FieldSelector := "metadata.name=" +:+ Name d_nascrd;
       TimeoutSeconds :=
         if previousError is Some _ then Some (Z.of_nat CleanupTimeoutSecondsOnError)
         else None |} in
  '(watcher, err) ← perform (main (nasclient_Watch watchOptions));
  if err is Some e then
    Ret (Some (Errorw "error setting up watch to cleanup allocations: %w" [] e))
  else
  result ← range_ResultChan watcher;
  perform (main watcher_Stop);;
  Ret result.

(** One turn of the endless [for] of [CleanupStaleStateContinuously]. *)
Definition CleanupStaleStateContinuously_body : Prog pass_call unit :=
  '(resourceVersion, err) ← cleanupStaleStateOnce;
  err ← cleanupStaleStateContinuously resourceVersion err;
  if err is Some _ then perform (main (time_Sleep CleanupTimeoutSecondsOnError))
  else Ret tt.

(** The first [turns] turns of the loop, which has no exit of its own. *)
Fixpoint CleanupStaleStateContinuously (turns : nat) : Prog pass_call unit :=
  match turns with
  | 0 => Ret tt
  | S n => CleanupStaleStateContinuously_body;; CleanupStaleStateContinuously n
  end.

(** ** A world built from the specification *)

Module Model.

(** Modelled from the spec: what happens around one call of the record
    client.  The API server may be unreachable (section 7, transport and
    availability errors), or the control plane may rewrite [AllocatedClaims]
    just before the call (section 4.1: external writers mutate
    [AllocatedClaims] concurrently); [PreparedClaims] has no other writer
    than this driver (section 3). *)
Inductive env_step :=
| Quiet
| Unavailable
| ControlPlaneWrites (allocated : gmap string AllocatedDevices).

(** Modelled from the spec: the record as the API server stores it; the
    version token of section 3 is the decimal print of [version]. *)
Record stored := {
  version : N;
  spec : NodeAllocationStateSpec;
  status : string;
}.

(** Modelled from the spec: the state behind the collaborators of section 6,
    with the mirror that the driver and the record client share. *)
Record World := {
  mirror : NodeAllocationState;          (* *d.nascrd, shared with the client *)
  server : option stored;                (* [None]: the record does not exist *)
  reservations : gmap string (list string);  (* devices reserved per claim *)
  failing : gset string;                 (* claims whose device operations fail *)
  env : list env_step;                   (* one step per call of the client *)
  stream : list Event;                   (* what the next watch delivers *)
}.

Definition object_of (name : string) (s : stored) : NodeAllocationState :=
  {| Name := name; ResourceVersion := pretty (version s);
     Spec := spec s; Status := status s |}.

Definition set_mirror (nas : NodeAllocationState) (w : World) : World :=
  {| mirror := nas; server := server w; reservations := reservations w;
     failing := failing w; env := env w; stream := stream w |}.

Definition set_server (s : option stored) (w : World) : World :=
  {| mirror := mirror w; server := s; reservations := reservations w;
     failing := failing w; env := env w; stream := stream w |}.

Definition set_reservations (r : gmap string (list string)) (w : World) : World :=
  {| mirror := mirror w; server := server w; reservations := r;
     failing := failing w; env := env w; stream := stream w |}.

Definition set_env (e : list env_step) (w : World) : World :=
  {| mirror := mirror w; server := server w; reservations := reservations w;
     failing := failing w; env := e; stream := stream w |}.

Definition set_stream (evs : list Event) (w : World) : World :=
  {| mirror := mirror w; server := server w; reservations := reservations w;
     failing := failing w; env := env w; stream := evs |}.

(** Modelled from the spec: a write accepted by the server.  The version
    advances (section 5) and the client's mirror holds the stored object
    again: [NewDriver] chains three writes after one read (section 4.1, steps
    2, 4 and 5), which succeed only if each carries the version that the one
    before it produced. *)
Definition store (s : stored) (w : World) : World :=
  set_mirror (object_of (Name (mirror w)) s) (set_server (Some s) w).

(** Modelled from the spec: a write of the control plane replaces
    [AllocatedClaims] and advances the version; it leaves [PreparedClaims]
    alone (section 3). *)
Definition interfere (e : env_step) (w : World) : World :=
  match e, server w with
  | ControlPlaneWrites allocated, Some s =>
      set_server (Some {| version := version s + 1;
                          spec := {| AllocatedClaims := allocated;
                                     PreparedClaims := PreparedClaims (spec s) |};
                          status := status s |}) w
  | _, _ => w
  end.

Definition unavailable : error :=
  StatusError StatusReasonServiceUnavailable "the server is currently unable to handle the request".
Definition not_found : error :=
  StatusError StatusReasonNotFound "not found".
Definition conflict : error :=
  StatusError StatusReasonConflict "the object has been modified".

(** Modelled from the spec: a call of the record client consumes the next
    step of the environment; an unreachable server fails the call and
    changes nothing. *)
Definition client_call {X} (failed : error → X) (body : World → X * World)
    (w : World) : X * World :=
  match env w with
  | [] => body w
  | Unavailable :: rest => (failed unavailable, set_env rest w)
  | e :: rest => body (interfere e (set_env rest w))
  end.

(** Modelled from the spec: [Get] refreshes the local mirror (section 6). *)
Definition get (w : World) : option error * World :=
  match server w with
  | None => (Some not_found, w)
  | Some s => (None, set_mirror (object_of (Name (mirror w)) s) w)
  end.

(** Modelled from the spec: get-or-create (section 4.1, step 1); the record
    is created from the mirror the driver was configured with. *)
Definition get_or_create (w : World) : option error * World :=
  match server w with
  | None =>
      (None, store {| version := 1; spec := Spec (mirror w);
                      status := Status (mirror w) |} w)
  | Some _ => get w
  end.

(** Modelled from the spec: a version-checked write, which fails with a
    conflict error on a stale version (section 6).  The version sent is the
    one the mirror holds. *)
Definition write (change : stored → stored) (w : World) : option error * World :=
  match server w with
  | None => (Some not_found, w)
  | Some s =>
      if decide (ResourceVersion (mirror w) = pretty (version s)) then
        (None, store (change {| version := version s + 1; spec := spec s;
                                status := status s |}) w)
      else (Some conflict, w)
  end.

(** Modelled from the spec: [Update] writes the spec, [UpdateStatus] the
    status (section 6). *)
Definition update (new : NodeAllocationStateSpec) : World → option error * World :=
  write (λ s, {| version := version s; spec := new; status := status s |}).

Definition update_status (new : string) : World → option error * World :=
  write (λ s, {| version := version s; spec := spec s; status := new |}).

(** Modelled from the spec: [List] yields the objects matching the node's
    name, one when the record exists, and the current version token. *)
Definition list_ (opts : ListOptions) (w : World)
    : (NodeAllocationStateList * option error) * World :=
  match server w with
  | None => ({| ListResourceVersion := "0"; Items := [] |}, None, w)
  | Some s =>
      ({| ListResourceVersion := pretty (version s);
          Items := [object_of (Name (mirror w)) s] |}, None, w)
  end.

(** Modelled from the spec: [Watch] opens the stream of the events that
    the world holds ready. *)
Definition watch (opts : ListOptions) (w : World) : (list Event * option error) * World :=
  (stream w, None, set_stream [] w).

(** Modelled from the spec: the Device State Manager is initialised from
    the record's [PreparedClaims], so that a restart does not orphan hardware
    (section 4.1, step 3). *)
Definition new_device_state (w : World) : option error * World :=
  (None, set_reservations (PreparedClaims (Spec (mirror w))) w).

(** Modelled from the spec: the Device State Manager's [Prepare] reserves
    the allocated devices for the claim and returns them; for a claim it has
    reserved already it answers from its cache, so that a retried attempt of
    the driver finds the reservation of the attempt before it; missing
    allocation details and devices that cannot be reserved are errors (section
    4.1). *)
Definition prepare (claimUID : string) (allocation : AllocatedDevices) (w : World)
    : (list string * option error) * World :=
  match reservations w !! claimUID with
  | Some devices => (devices, None, w)
  | None =>
      if decide (allocation = []) then
        ([], Some (ErrorString "no allocation details for claim"), w)
      else if decide (claimUID ∈ failing w) then
        ([], Some (ErrorString "unable to reserve devices"), w)
      else (allocation, None, set_reservations (<[claimUID := allocation]> (reservations w)) w)
  end.

(** Modelled from the spec: the Device State Manager's [Unprepare]
    releases the claim's devices, and is a no-op that succeeds for a claim that
    is not reserved (section 4.1). *)
Definition unprepare (claimUID : string) (w : World) : option error * World :=
  if decide (claimUID ∈ failing w) then
    (Some (ErrorString "unable to release devices"), w)
  else (None, set_reservations (delete claimUID (reservations w)) w).

(** Modelled from the spec: [GetUpdatedSpec] projects the reservations into
    the spec it is given, here the mirror's (section 2). *)
Definition get_updated_spec (w : World) : NodeAllocationStateSpec * World :=
  ({| AllocatedClaims := AllocatedClaims (Spec (mirror w));
      PreparedClaims := reservations w |}, w).

(** Modelled from the spec: [GetClaimDevices] is a local lookup in the
    cache, without an error path (section 6). *)
Definition get_claim_devices (claimUID : string) (w : World) : list string * World :=
  (default [] (reservations w !! claimUID), w).

(** Modelled from the spec: the collaborators of section 6 over [World]. *)
Global Instance world : Collaborators World := {|
  nascrd := mirror;
  GetOrCreate := client_call Some get_or_create;
  Get := client_call Some get;
  Update new := client_call Some (update new);
  UpdateStatus new := client_call Some (update_status new);
  List opts :=
    client_call (λ e, ({| ListResourceVersion := ""; Items := [] |}, Some e)) (list_ opts);
  OpenWatch opts := client_call (λ e, ([], Some e)) (watch opts);
  Stop w := w;
  InitDeviceState := new_device_state;
  Prepare_ := prepare;
  Unprepare_ := unprepare;
  GetUpdatedSpec := get_updated_spec;
  GetClaimDevices := get_claim_devices;
|}.

(** A node whose record does not exist yet. *)
Definition fresh (name : string) : World :=
  {| mirror := {| Name := name; ResourceVersion := "";
                  Spec := {| AllocatedClaims := ∅; PreparedClaims := ∅ |};
                  Status := "" |};
     server := None; reservations := ∅; failing := ∅; env := []; stream := [] |}.

(** A running node: the record holds [allocated] and [prepared], and the
    device state holds the reservations of [prepared]. *)
Definition node (allocated : gmap string AllocatedDevices)
    (prepared : gmap string PreparedDevices) : World :=
  let s := {| version := 4;
              spec := {| AllocatedClaims := allocated; PreparedClaims := prepared |};
              status := NodeAllocationStateStatusReady |} in
  {| mirror := object_of "node-1" s; server := Some s; reservations := prepared;
     failing := ∅; env := []; stream := [] |}.

(** The claims that the stored record lists as prepared. *)
Definition stored_prepared (w : World) : option (gmap string PreparedDevices) :=
  PreparedClaims ∘ spec <$> server w.

(** Between two states of the device state, at most the reservation of
    [claimUID] was added. *)
Definition reserved_at_most (claimUID : string) (w w' : World) : Prop :=
  reservations w' = reservations w
  ∨ (reservations w !! claimUID = None
     ∧ ∃ devices, reservations w' = <[claimUID := devices]> (reservations w)).



(** Two orphaned claims, none allocated. *)
Definition two_orphans : World :=
  node ∅ (<["claim-a" := ["gpu-0"]]> (<["claim-b" := ["gpu-1"]]> ∅)).

(** A claim allocated but not prepared; the control plane rewrites the
    allocations right before every write of the driver. *)
Definition contended : World :=
  let allocated : gmap string AllocatedDevices := <["claim-1" := ["gpu-0"]]> ∅ in
  set_env [Quiet; ControlPlaneWrites allocated; Quiet; ControlPlaneWrites allocated;
           Quiet; ControlPlaneWrites allocated; Quiet; ControlPlaneWrites allocated;
           Quiet; ControlPlaneWrites allocated]
    (node allocated ∅).

(** An orphaned claim whose devices cannot be released. *)
Definition stuck_orphan : World :=
  let w := node ∅ (<["claim-b" := ["gpu-1"]]> ∅) in
  {| mirror := mirror w; server := server w; reservations := reservations w;
     failing := {["claim-b"]}; env := []; stream := [] |}.

End Model.

(** ** Observations on programs and traces *)

(** [avoids bad p]: on no path does the program [p] make a call that [bad]
    marks. *)
Fixpoint avoids {A} (bad : ∀ X, call X → bool) (p : Prog call A) : Prop :=
  match p with
  | Ret _ => True
  | Do c k => bad _ c = false ∧ ∀ x, avoids bad (k x)
  end.

Definition is_mu_Lock (X : Type) (c : call X) : bool :=
  match c with mu_Lock => true | _ => false end.

Definition is_go (X : Type) (c : call X) : bool :=
  match c with go_CleanupStaleStateContinuously => true | _ => false end.


Definition is_state_Unprepare (X : Type) (c : call X) : bool :=
  match c with state_Unprepare _ => true | _ => false end.

Definition marked (sel : ∀ X, call X → bool) (e : event) : bool :=
  match e with Ev c _ => sel _ c end.

(** The events of a trace whose call is marked by [sel]. *)
Definition calls_of (sel : ∀ X, call X → bool) (t : list event) : list event :=
  filter (λ e, marked sel e = true) t.

(** What the calls of [d.nasclient.Update] returned, in order. *)
Definition update_results (t : list event) : list (option error) :=
  omap (λ e, match e with
             | Ev c x =>
                 match c in call X return X → option (option error) with
                 | nasclient_Update _ => λ r, Some r
                 | _ => λ _, None
                 end x
             end) t.

(** What the calls of [d.state.Prepare] returned, in order. *)
Definition prepare_results (t : list event) : list (list string * option error) :=
  omap (λ e, match e with
             | Ev c x =>
                 match c in call X return X → option (list string * option error) with
                 | state_Prepare _ _ => λ r, Some r
                 | _ => λ _, None
                 end x
             end) t.

Definition conflicted (r : option error) : Prop :=
  ∃ e, r = Some e ∧ IsConflict e = true.

(** The calls of goroutine [i] in the trace of a pool. *)
Definition thread_events (i : nat) (t : list (nat * event)) : list event :=
  omap (λ ie, if decide (ie.1 = i) then Some ie.2 else None) t.

(** [follows p t q]: after the calls and answers [t], the program [p] has
    become [q]. *)
Inductive follows {A} : Prog call A → list event → Prog call A → Prop :=
| follows_nil p : follows p [] p
| follows_cons {X} (c : call X) k x t q :
    follows (k x) t q → follows (Do c k) (Ev c x :: t) q.

(** [finishes p t r]: the calls and answers [t] take [p] to its end, where
    it returns [r]. *)
Definition finishes {A} (p : Prog call A) (t : list event) (r : A) : Prop :=
  follows p t (Ret r).

(** The records on which [cleanupStaleState] was called, in order. *)
Definition passes (t : list pass_event) : list NodeAllocationState :=
  omap (λ e, if e is EnterEv nas then Some nas else None) t.

(** The goroutines' part of the trace of a pass. *)
Definition unit_events (t : list pass_event) : list (nat * event) :=
  omap (λ e, if e is UnitEv i e' then Some (i, e') else None) t.

(** The version tokens from which watches were opened, in order. *)
Definition watch_versions (t : list pass_event) : list string :=
  omap (λ e, match e with
             | MainEv (Ev c _) =>
                 match c with
                 | nasclient_Watch opts => Some (OptResourceVersion opts)
                 | _ => None
                 end
             | _ => None
             end) t.

(** The event streams of the watches that were opened without error. *)
Definition watch_streams (t : list pass_event) : list (list Event) :=
  omap (λ e, match e with
             | MainEv (Ev c x) =>
                 match c in call X return X → option (list Event) with
                 | nasclient_Watch _ => λ r, if r.2 is None then Some r.1 else None
                 | _ => λ _, None
                 end x
             | _ => None
             end) t.

(** The version tokens that lists returned without error, in order. *)
Definition listed_versions (t : list pass_event) : list string :=
  omap (λ e, match e with
             | MainEv (Ev c x) =>
                 match c in call X return X → option string with
                 | nasclient_List _ =>
                     λ r, if r.2 is None then Some (ListResourceVersion r.1) else None
                 | _ => λ _, None
                 end x
             | _ => None
             end) t.

(** The records of the modification events of a stream, in order. *)
Definition triggers (events : list Event) : list NodeAllocationState :=
  omap (λ event,
          if decide (Type_ event = Modified) then
            if Object_ event is ObjNodeAllocationState nas then Some nas else None
          else None) events.

(** A modification event whose object is not the record ends the loop. *)
Definition decodes (event : Event) : Prop :=
  Type_ event = Modified → ∃ nas, Object_ event = ObjNodeAllocationState nas.

(** The specification's reading of the watch phase, to be compared with the
    loop of the code: one cleanup pass per record, one after the other,
    whatever the passes return.  It yields what each pass returned. *)
Fixpoint run_passes `{Collaborators W} (records : list NodeAllocationState)
    (s : W * list (list nat))
    : list (option error) * (W * list (list nat)) * list pass_event :=
  match records with
  | [] => ([], s, [])
  | nas :: records' =>
      let '(err, s1, t1) := run exec_pass (cleanupStaleState nas) s in
      let '(errs, s2, t2) := run_passes records' s1 in
      (err :: errs, s2, t1 ++ t2)
  end.

(** [stops_at events consumed errs err]: the loop over [events] has taken
    the first [consumed] of them, its passes have returned [errs], and it has
    returned [err].  No pass but the last has failed.  Without an error the
    loop has taken every event, all of which decode, and no pass has failed.
    With an error the last event taken is a modification event: either it
    carries the record and the error is the one that its pass, the last one,
    returned; or it does not decode, no pass has failed and the error is the
    decoding error. *)
Definition stops_at (events : list Event) (consumed : nat)
    (errs : list (option error)) (err : option error) : Prop :=
  Forall (λ r, r = None) (removelast errs)
  ∧ match err with
    | None =>
        consumed = length events ∧ Forall decodes events
        ∧ Forall (λ r, r = None) errs
    | Some e =>
        ∃ event,
          last (take consumed events) = Some event
          ∧ Type_ event = Modified
          ∧ Forall decodes (removelast (take consumed events))
          ∧ match Object_ event with
            | ObjNodeAllocationState _ => last errs = Some (Some e)
            | _ =>
                e = Errorf "unexpected error decoding object from watcher" []
                ∧ Forall (λ r, r = None) errs
            end
    end.

(** The calls of one attempt of [NewDriver]'s closure, and the error the
    attempt returns: the attempt stops at the first step that fails. *)
Inductive attempt_trace : list event → option error → Prop :=
| attempt_GetOrCreate e :
    attempt_trace [Ev nasclient_GetOrCreate (Some e)] (Some e)
| attempt_NotReady e :
    attempt_trace
      [Ev nasclient_GetOrCreate None;
       Ev (nasclient_UpdateStatus NodeAllocationStateStatusNotReady) (Some e)] (Some e)
| attempt_NewDeviceState e :
    attempt_trace
      [Ev nasclient_GetOrCreate None;
       Ev (nasclient_UpdateStatus NodeAllocationStateStatusNotReady) None;
       Ev NewDeviceState (Some e)] (Some e)
| attempt_Update spec e :
    attempt_trace
      [Ev nasclient_GetOrCreate None;
       Ev (nasclient_UpdateStatus NodeAllocationStateStatusNotReady) None;
       Ev NewDeviceState None;
       Ev state_GetUpdatedSpec spec;
       Ev (nasclient_Update spec) (Some e)] (Some e)
| attempt_Ready spec e :
    attempt_trace
      [Ev nasclient_GetOrCreate None;
       Ev (nasclient_UpdateStatus NodeAllocationStateStatusNotReady) None;
       Ev NewDeviceState None;
       Ev state_GetUpdatedSpec spec;
       Ev (nasclient_Update spec) None;
       Ev (nasclient_UpdateStatus NodeAllocationStateStatusReady) (Some e)] (Some e)
| attempt_done spec :
    attempt_trace
      [Ev nasclient_GetOrCreate None;
       Ev (nasclient_UpdateStatus NodeAllocationStateStatusNotReady) None;
       Ev NewDeviceState None;
       Ev state_GetUpdatedSpec spec;
       Ev (nasclient_Update spec) None;
       Ev (nasclient_UpdateStatus NodeAllocationStateStatusReady) None] None.

(** [construction budget t err]: the trace [t] is a sequence of attempts of
    which every one but the last failed with a conflict error; the last one
    succeeded, or failed with another error, or failed with a conflict error
    as attempt number [budget]. *)
Inductive construction : nat → list event → option error → Prop :=
| construction_success n t :
    attempt_trace t None → construction (S n) t None
| construction_abort n t e :
    attempt_trace t (Some e) → IsConflict e = false →
    construction (S n) t (Some e)
| construction_exhausted t e :
    attempt_trace t (Some e) → IsConflict e = true →
    construction 1 t (Some e)
| construction_retry n t e t' err :
    attempt_trace t (Some e) → IsConflict e = true →
    construction (S n) t' err →
    construction (S (S n)) (t ++ t') err.

(** ** Observations for the retried operations and the loop *)

(** The error that a call returned, for the calls that return one. *)
Definition returned (e : event) : option error :=
  match e with
  | Ev c x =>
      match c in call X return X → option error with
      | nasclient_GetOrCreate => λ r, r
      | nasclient_Get => λ r, r
      | nasclient_Update _ => λ r, r
      | nasclient_UpdateStatus _ => λ r, r
      | nasclient_List _ => λ r, r.2
      | nasclient_Watch _ => λ r, r.2
      | NewDeviceState => λ r, r
      | state_Prepare _ _ => λ r, r.2
      | state_Unprepare _ => λ r, r
      | _ => λ _, None
      end x
  end.

(** The error that the last call of a trace returned. *)
Definition outcome (t : list event) : option error := last t ≫= returned.

Definition is_nasclient_Get (X : Type) (c : call X) : bool :=
  match c with nasclient_Get => true | _ => false end.

Definition is_mutex (X : Type) (c : call X) : bool :=
  match c with mu_Lock | mu_Unlock => true | _ => false end.

(** The calls that [Shutdown] has no business making: everything but the
    refresh and the status write of NotReady. *)
Definition not_of_Shutdown (X : Type) (c : call X) : bool :=
  match c with
  | nasclient_Get => false
  | nasclient_UpdateStatus status =>
      negb (String.eqb status NodeAllocationStateStatusNotReady)
  | _ => true
  end.

(** The calls that [Unprepare claimUID] has no business making: everything
    but the refresh, the release of [claimUID], the projection and the
    write. *)
Definition not_of_Unprepare (claimUID : string) (X : Type) (c : call X) : bool :=
  match c with
  | nasclient_Get | state_GetUpdatedSpec | nasclient_Update _ => false
  | state_Unprepare claimUID' => negb (String.eqb claimUID' claimUID)
  | _ => true
  end.

(** The calls that [Prepare claimUID] has no business making. *)
Definition not_of_Prepare (claimUID : string) (X : Type) (c : call X) : bool :=
  match c with
  | nasclient_Get | load_nascrd | state_GetUpdatedSpec | nasclient_Update _ => false
  | state_Prepare claimUID' _ => negb (String.eqb claimUID' claimUID)
  | _ => true
  end.

(** What the calls of [d.state.Unprepare] returned, in order. *)
Definition unprepare_results (t : list event) : list (option error) :=
  omap (λ e, match e with
             | Ev c x =>
                 match c in call X return X → option (option error) with
                 | state_Unprepare _ => λ r, Some r
                 | _ => λ _, None
                 end x
             end) t.

(** The spec that a call of [d.nasclient.Update] writes, and the spec that
    a call of [d.state.GetUpdatedSpec] returned. *)
Definition written_spec (e : event) : option NodeAllocationStateSpec :=
  match e with
  | Ev c _ => match c with nasclient_Update spec => Some spec | _ => None end
  end.

Definition projected_spec (e : event) : option NodeAllocationStateSpec :=
  match e with
  | Ev c x =>
      match c in call X return X → option NodeAllocationStateSpec with
      | state_GetUpdatedSpec => λ spec, Some spec
      | _ => λ _, None
      end x
  end.

(** [projected_writes prev t]: every write of a spec in [t] comes right after
    the call of [GetUpdatedSpec] that returned this spec; [prev] is the call
    before [t]. *)
Fixpoint projected_writes (prev : option event) (t : list event) : Prop :=
  match t with
  | [] => True
  | e :: t' =>
      (∀ spec, written_spec e = Some spec → prev ≫= projected_spec = Some spec)
      ∧ projected_writes (Some e) t'
  end.

(** [returns P p]: on every path the program [p] returns a value that
    satisfies [P]. *)
Fixpoint returns {A} (P : A → Prop) (p : Prog call A) : Prop :=
  match p with
  | Ret a => P a
  | Do c k => ∀ x, returns P (k x)
  end.

(** [retries att retriable budget t r]: the trace [t] is a sequence of at
    most [budget] attempts, each of which [att] relates to what it returned;
    every attempt but the last returned a retriable error; the last one
    returned [r], which is a success, an error that is not retriable, or a
    retriable error of attempt number [budget]. *)
Inductive retries {S : Type} (att : list event → S * option error → Prop)
    (retriable : error → bool) : nat → list event → S * option error → Prop :=
| retries_success n t s :
    att t (s, None) → retries att retriable (Datatypes.S n) t (s, None)
| retries_abort n t s e :
    att t (s, Some e) → retriable e = false →
    retries att retriable (Datatypes.S n) t (s, Some e)
| retries_exhausted t s e :
    att t (s, Some e) → retriable e = true →
    retries att retriable 1 t (s, Some e)
| retries_again n t s e t' r :
    att t (s, Some e) → retriable e = true →
    retries att retriable (Datatypes.S n) t' r →
    retries att retriable (Datatypes.S (Datatypes.S n)) (t ++ t') r.

(** The calls of the loop's own goroutine in a trace. *)
Definition main_events (t : list pass_event) : list event :=
  omap (λ e, if e is MainEv e' then Some e' else None) t.

Definition is_nasclient_List (X : Type) (c : call X) : bool :=
  match c with nasclient_List _ => true | _ => false end.

Definition is_nasclient_Watch (X : Type) (c : call X) : bool :=
  match c with nasclient_Watch _ => true | _ => false end.

Definition is_time_Sleep (X : Type) (c : call X) : bool :=
  match c with time_Sleep _ => true | _ => false end.

(** The options with which watches were opened, in order. *)
Definition watch_options (t : list event) : list ListOptions :=
  omap (λ e, match e with
             | Ev c _ => match c with nasclient_Watch opts => Some opts | _ => None end
             end) t.

(** The lengths of the pauses, in seconds and in order. *)
Definition sleeps (t : list event) : list nat :=
  omap (λ e, match e with
             | Ev c _ => match c with time_Sleep seconds => Some seconds | _ => None end
             end) t.

(** No claim of the record is prepared without being allocated. *)
Definition settled (nas : NodeAllocationState) : Prop :=
  ∀ claimUID,
    is_Some (PreparedClaims (Spec nas) !! claimUID) →
    is_Some (AllocatedClaims (Spec nas) !! claimUID).

(** Every modification event of the stream carries a settled record. *)
Definition quiet (event : Event) : Prop :=
  Type_ event = Modified →
  ∃ nas, Object_ event = ObjNodeAllocationState nas ∧ settled nas.

(** The shape of one attempt of a retried operation: one refresh, calls that
    return no error, and a last call whose error, if any, is the attempt's. *)
Definition attempt_shape (t : list event) (err : option error) : Prop :=
  ∃ t0 ev,
    t = t0 ++ [ev]
    ∧ Forall (λ e, returned e = None) t0
    ∧ returned ev = err
    ∧ length (calls_of is_nasclient_Get t) = 1.

(** One attempt of [Unprepare]. *)
Definition Unprepare_attempt (t : list event) (r : unit * option error) : Prop :=
  attempt_shape t r.2
  ∧ length (update_results t) + length (filter is_Some (unprepare_results t))
    = length (unprepare_results t)
  ∧ projected_writes None t.

(** One attempt of [Prepare]; [r.1] is the captured variable [prepared]
    after the attempt. *)
Definition Prepare_attempt (t : list event) (r : list string * option error) : Prop :=
  attempt_shape t r.2
  ∧ length (update_results t) + length (filter (λ x, is_Some x.2) (prepare_results t))
    = length (prepare_results t)
  ∧ projected_writes None t
  ∧ (r.2 = None → last (prepare_results t) = Some (r.1, None)).

(** The two errors of [NodePrepareResource], and its answers. *)
Definition NodePrepareResource_result (claimUID : string)
    (r : option NodePrepareResourceResponse * option error) : Prop :=
  (∃ resp, r = (Some resp, None))
  ∨ (∃ e, r = (None, Some (Errorw "error checking if claim is already prepared: %w"
                             [] e)))
  ∨ (∃ e, r = (None, Some (Errorw "error preparing devices for claim %v: %w"
                             [FmtString claimUID] e))).

(** The calls that the loop's own goroutine has no business making:
    everything but reading the mirror, listing, watching, stopping the watcher
    and pausing. *)
Definition not_of_loop (X : Type) (c : call X) : bool :=
  match c with
  | load_nascrd | nasclient_List _ | nasclient_Watch _ | watcher_Stop
  | time_Sleep _ => false
  | _ => true
  end.

(** The calls that a goroutine of a cleanup pass has no business making:
    everything but the calls of [Unprepare]. *)
Definition not_of_cleanup (X : Type) (c : call X) : bool :=
  match c with
  | nasclient_Get | state_Unprepare _ | state_GetUpdatedSpec
  | nasclient_Update _ => false
  | _ => true
  end.

(** [pass_avoids bad_main bad_unit p]: on no path does the loop's goroutine
    make a call that [bad_main] marks, or start a goroutine that could make a
    call that [bad_unit] marks. *)
Fixpoint pass_avoids {A} (bad_main bad_unit : ∀ X, call X → bool)
    (p : Prog pass_call A) : Prop :=
  match p with
  | Ret _ => True
  | Do c k =>
      match c with
      | main c' => bad_main _ c' = false
      | enter_cleanupStaleState _ => True
      | wg_Wait units => Forall (λ u, avoids bad_unit u.2) units
      end
      ∧ ∀ x, pass_avoids bad_main bad_unit (k x)
  end.

(** The options with which the record was listed, in order. *)
Definition list_options (t : list event) : list ListOptions :=
  omap (λ e, match e with
             | Ev c _ => match c with nasclient_List opts => Some opts | _ => None end
             end) t.

(** What the loop asks of a watch: the stream of the record of this name,
    without a timeout or with the one of
    [CleanupTimeoutSecondsOnError] seconds. *)
Definition loop_watch (opts : ListOptions) : Prop :=
  Watch opts = true
  ∧ (TimeoutSeconds opts = None
     ∨ TimeoutSeconds opts = Some (Z.of_nat CleanupTimeoutSecondsOnError)).

Definition is_watcher_Stop (X : Type) (c : call X) : bool :=
  match c with watcher_Stop => true | _ => false end.

(** What the calls of [d.nasclient.Watch] returned, in order. *)
Definition watch_results (t : list event) : list (list Event * option error) :=
  omap (λ e, match e with
             | Ev c x =>
                 match c in call X return X → option (list Event * option error) with
                 | nasclient_Watch _ => λ r, Some r
                 | _ => λ _, None
                 end x
             end) t.

(** [loop_calls turns m]: what the loop's own goroutine has called in
    [turns] turns.  It has listed once per turn, never as a watch, and opened
    one watch per turn, as [loop_watch] says; every watcher that was opened
    has been stopped; it has paused at most once per turn, for
    [CleanupTimeoutSecondsOnError] seconds. *)
Definition loop_calls (turns : nat) (m : list event) : Prop :=
  length (list_options m) = turns
  ∧ Forall (λ opts, Watch opts = false) (list_options m)
  ∧ length (watch_options m) = turns
  ∧ Forall loop_watch (watch_options m)
  ∧ length (calls_of is_watcher_Stop m)
    + length (filter (λ r, is_Some r.2) (watch_results m))
    = length (watch_results m)
  ∧ length (sleeps m) ≤ turns
  ∧ Forall (λ seconds, seconds = CleanupTimeoutSecondsOnError) (sleeps m).

(** The calls that [IsPrepared claimUID] has no business making: everything
    but the refresh, reading the mirror and asking the cache for
    [claimUID]. *)
Definition not_of_IsPrepared (claimUID : string) (X : Type) (c : call X) : bool :=
  match c with
  | nasclient_Get | load_nascrd => false
  | cdi_GetClaimDevices claimUID' => negb (String.eqb claimUID' claimUID)
  | _ => true
  end.

Definition is_cdi_GetClaimDevices (X : Type) (c : call X) : bool :=
  match c with cdi_GetClaimDevices _ => true | _ => false end.

(** * Properties *)

(** ** Running programs *)

Lemma run_bind {E : Type → Type} {St Tr : Type} (h : ∀ X, E X → St → X * St * list Tr)
    {A B} (p : Prog E A) (f : A → Prog E B) (s : St) :
  run h (bind p f) s =
  let '(a, s1, t1) := run h p s in
  let '(b, s2, t2) := run h (f a) s1 in
  (b, s2, t1 ++ t2).
Proof.
  revert s. induction p as [a | X e k IH]; intros s; simpl.
  - by destruct (run h (f a) s) as [[b s2] t2].
  - destruct (h X e s) as [[x s1] t1]. rewrite IH.
    destruct (run h (k x) s1) as [[a s2] t2].
    destruct (run h (f a) s2) as [[b s3] t3].
    by rewrite (assoc_L (++)).
Qed.

Lemma run_OnError_0 {E : Type → Type} {St Tr S : Type}
    (h : ∀ X, E X → St → X * St * list Tr) (retriable : error → bool)
    (fn : S → Prog E (S * option error)) (s : S) (lastErr : option error) (st : St) :
  run h (OnError 0 retriable fn s lastErr) st = ((s, lastErr), st, []).
Proof. reflexivity. Qed.

Lemma run_OnError_S {E : Type → Type} {St Tr S : Type}
    (h : ∀ X, E X → St → X * St * list Tr) (n : nat) (retriable : error → bool)
    (fn : S → Prog E (S * option error)) (s : S) (lastErr : option error) (st : St) :
  run h (OnError (Datatypes.S n) retriable fn s lastErr) st =
  let '(r, st1, t1) := run h (fn s) st in
  match r.2 with
  | None => ((r.1, None), st1, t1)
  | Some e =>
      if retriable e then
        let '(r', st2, t2) := run h (OnError n retriable fn r.1 (Some e)) st1 in
        (r', st2, t1 ++ t2)
      else ((r.1, Some e), st1, t1)
  end.
Proof.
  simpl. rewrite run_bind.
  destruct (run h (fn s) st) as [[[s' [e|]] st1] t1]; simpl.
  - destruct (retriable e); simpl.
    + by destruct (run h _ st1) as [[r' st2] t2].
    + by rewrite (right_id_L [] (++)).
  - by rewrite (right_id_L [] (++)).
Qed.

Lemma OnError_unfold {E S} (n : nat) (retriable : error → bool)
    (fn : S → Prog E (S * option error)) (s : S) (lastErr : option error) :
  OnError (Datatypes.S n) retriable fn s lastErr =
  bind (fn s) (λ '(s', err),
    match err with
    | None => Ret (s', None)
    | Some e =>
        if retriable e then OnError n retriable fn s' (Some e)
        else Ret (s', Some e)
    end).
Proof. reflexivity. Qed.

Global Opaque OnError.

Lemma run_call_Do `{Collaborators W} {A X} (c : call X) (k : X → Prog call A) (w : W) :
  run exec_ev (Do c k) w =
  let '(x, w1) := exec c w in
  let '(a, w2, t) := run exec_ev (k x) w1 in
  (a, w2, Ev c x :: t).
Proof. cbn [run]. unfold exec_ev at 1. by destruct (exec c w) as [x w1]. Qed.

(** One call of a program run by [run_call] comes to the front. *)
Ltac call_step := cbn [bind perform]; rewrite run_call_Do; cbn [exec].

Ltac destruct_run :=
  match goal with
  | |- context [run ?h ?p ?s] =>
      let r := fresh "r" in let s' := fresh "s" in let t := fresh "t" in
      destruct (run h p s) as [[r s'] t] eqn:?
  end.

(** ** Calls that a program never makes *)

Lemma avoids_bind {A B} bad (p : Prog call A) (f : A → Prog call B) :
  avoids bad p → (∀ a, avoids bad (f a)) → avoids bad (bind p f).
Proof.
  intros Hp Hf. induction p as [a | X c k IH]; simpl in *; [done |].
  destruct Hp as [Hc Hk]. split; [done |]. intros x. by apply IH.
Qed.

Lemma avoids_OnError {S} bad (n : nat) retriable
    (fn : S → Prog call (S * option error)) (s : S) lastErr :
  (∀ s, avoids bad (fn s)) → avoids bad (OnError n retriable fn s lastErr).
Proof.
  intros Hfn. revert s lastErr. induction n as [| n IH]; intros s lastErr.
  - done.
  - rewrite OnError_unfold. apply avoids_bind; [done |].
    intros [s' [e |]]; [| done]. destruct (retriable e); [apply IH | done].
Qed.

Lemma avoids_run `{Collaborators W} {A} bad (p : Prog call A) (w : W) :
  avoids bad p → Forall (λ e, marked bad e = false) (run_call p w).2.
Proof.
  unfold run_call. revert w. induction p as [a | X c k IH]; intros w Hp; cbn [run].
  - constructor.
  - destruct Hp as [Hc Hk]. unfold exec_ev at 1.
    destruct (exec c w) as [x w1]. specialize (IH x w1 (Hk x)).
    destruct (run exec_ev (k x) w1) as [[a w2] t2]. simpl in *.
    by constructor.
Qed.

Lemma Unprepare_avoids_lock (claimUID : string) :
  avoids is_mu_Lock (Unprepare claimUID).
Proof.
  unfold Unprepare, RetryOnConflict. apply avoids_bind.
  - apply avoids_OnError. intros []. unfold Unprepare_closure. simpl.
    split; [done |]. intros [e |]; [done |]. simpl.
    split; [done |]. intros [e |]; [done |]. simpl.
    split; [done |]. intros spec. split; [done |]. by intros [e |].
  - by intros [[] [e |]].
Qed.

Lemma unprepare_claim_avoids_lock (claimUID : string) :
  avoids is_mu_Lock (unprepare_claim claimUID).
Proof.
  unfold unprepare_claim. apply avoids_bind; [apply Unprepare_avoids_lock |].
  by intros [e |].
Qed.

(** ** Pools of goroutines *)

Lemma follows_trans {A} (p q r : Prog call A) (t1 t2 : list event) :
  follows p t1 q → follows q t2 r → follows p (t1 ++ t2) r.
Proof. induction 1; simpl; [done |]. intros. constructor. auto. Qed.

Lemma run_finishes `{Collaborators W} {A} (p : Prog call A) (w : W) :
  finishes p (run_call p w).2 (run_call p w).1.1.
Proof.
  unfold finishes, run_call. revert w.
  induction p as [a | X c k IH]; intros w; cbn [run].
  - constructor.
  - unfold exec_ev at 1 3. destruct (exec c w) as [x w1].
    specialize (IH x w1). destruct (run exec_ev (k x) w1) as [[a w2] t2].
    simpl in *. by constructor.
Qed.

Section pool.
Context `{Collaborators W}.
Implicit Types (ts : list work) (w : W) (t : list (nat * event)).

Lemma thread_events_app i t1 t2 :
  thread_events i (t1 ++ t2) = thread_events i t1 ++ thread_events i t2.
Proof. apply omap_app. Qed.

Lemma pool_step_follows i ts w :
  let '(ts', w', t) := pool_step i ts w in
  length ts' = length ts ∧
  ∀ j p, ts !! j = Some p →
    ∃ p', ts' !! j = Some p' ∧ follows p (thread_events j t) p'.
Proof.
  unfold pool_step. destruct (ts !! i) as [[a | X c k] |] eqn:Hi.
  - split; [done |]. intros j p Hj. exists p. split; [done | constructor].
  - destruct (exec c w) as [x w1]. split; [by rewrite length_insert |].
    intros j p Hj. destruct (decide (i = j)) as [-> | Hne].
    + exists (k x). split.
      * apply list_lookup_insert_eq. by eapply lookup_lt_Some.
      * assert (Some (Do c k) = Some p) as [= <-]
          by (etrans; [symmetry; exact Hi | exact Hj]).
        unfold thread_events. simpl.
        rewrite decide_True by done. repeat constructor.
    + exists p. split; [by rewrite list_lookup_insert_ne |].
      unfold thread_events. simpl. rewrite decide_False by done. constructor.
  - split; [done |]. intros j p Hj. exists p. split; [done | constructor].
Qed.

Lemma run_schedule_follows sched ts w :
  let '(ts', w', t) := run_schedule sched ts w in
  length ts' = length ts ∧
  ∀ j p, ts !! j = Some p →
    ∃ p', ts' !! j = Some p' ∧ follows p (thread_events j t) p'.
Proof.
  revert ts w. induction sched as [| i sched IH]; intros ts w; simpl.
  - split; [done |]. intros j p Hj. exists p. split; [done | constructor].
  - pose proof (pool_step_follows i ts w) as Hstep.
    destruct (pool_step i ts w) as [[ts1 w1] t1]. destruct Hstep as [Hlen1 Hstep].
    specialize (IH ts1 w1).
    destruct (run_schedule sched ts1 w1) as [[ts2 w2] t2]. destruct IH as [Hlen2 IH].
    split; [congruence |]. intros j p Hj.
    destruct (Hstep j p Hj) as (p1 & Hj1 & Hf1).
    destruct (IH j p1 Hj1) as (p2 & Hj2 & Hf2).
    exists p2. split; [done |]. rewrite thread_events_app. by eapply follows_trans.
Qed.

Lemma thread_events_tagged i j (t : list event) :
  thread_events j ((λ e, (i, e)) <$> t) = if decide (i = j) then t else [].
Proof.
  unfold thread_events. induction t as [| e t IH]; csimpl.
  - by destruct (decide (i = j)).
  - rewrite IH. by destruct (decide (i = j)).
Qed.

Lemma drain_follows i ts w :
  let '(rs, w', t) := drain i ts w in
  length rs = length ts ∧
  (∀ j, j < i → thread_events j t = []) ∧
  ∀ j p, ts !! j = Some p →
    ∃ r, rs !! j = Some r ∧ finishes p (thread_events (i + j) t) r.
Proof.
  revert i w. induction ts as [| p ps IH]; intros i w; simpl.
  - split; [done |]. split; [done |]. intros j p Hj. done.
  - pose proof (run_finishes p w) as Hfin.
    destruct (run_call p w) as [[r w1] t1]. simpl in Hfin.
    specialize (IH (S i) w1).
    destruct (drain (S i) ps w1) as [[rs w2] t2].
    destruct IH as (Hlen & Hlow & IH).
    split; [simpl; congruence |]. split.
    + intros j Hj. rewrite thread_events_app, thread_events_tagged.
      rewrite decide_False by lia. simpl. apply Hlow. lia.
    + intros [| j] q Hq; simpl in Hq.
      * injection Hq as <-. exists r. split; [done |].
        rewrite Nat.add_0_r, thread_events_app, thread_events_tagged.
        rewrite decide_True by done. rewrite Hlow by lia.
        by rewrite (right_id_L [] (++)).
      * destruct (IH j q Hq) as (r' & Hr' & Hf). exists r'. split; [done |].
        rewrite thread_events_app, thread_events_tagged.
        rewrite decide_False by lia. simpl.
        by replace (i + S j) with (S i + j) by lia.
Qed.

(** Every goroutine of a pool has run to its end when [wg.Wait()] returns,
    whatever the schedule, and its report is what it returned. *)
Lemma run_pool_complete sched ts w :
  let '(rs, w', t) := run_pool sched ts w in
  length rs = length ts ∧
  ∀ j p, ts !! j = Some p →
    ∃ r, rs !! j = Some r ∧ finishes p (thread_events j t) r.
Proof.
  unfold run_pool.
  pose proof (run_schedule_follows sched ts w) as Hs.
  destruct (run_schedule sched ts w) as [[ts1 w1] t1]. destruct Hs as [Hlen1 Hs].
  pose proof (drain_follows 0 ts1 w1) as Hd.
  destruct (drain 0 ts1 w1) as [[rs w2] t2]. destruct Hd as (Hlen2 & _ & Hd).
  split; [congruence |]. intros j p Hj.
  destruct (Hs j p Hj) as (p1 & Hj1 & Hf1).
  destruct (Hd j p1 Hj1) as (r & Hr & Hf2).
  exists r. split; [done |]. rewrite thread_events_app. by eapply follows_trans.
Qed.

(** A call that no goroutine of the pool makes is not in the pool's trace. *)
Lemma pool_step_avoids bad i ts w :
  Forall (avoids bad) ts →
  let '(ts', w', t) := pool_step i ts w in
  Forall (avoids bad) ts' ∧ Forall (λ ie, marked bad ie.2 = false) t.
Proof.
  intros Hts. unfold pool_step. destruct (ts !! i) as [[a | X c k] |] eqn:Hi.
  - by split.
  - destruct (exec c w) as [x w1].
    pose proof (Forall_lookup_1 _ _ _ _ Hts Hi) as [Hc Hk]. split.
    + apply Forall_insert; [done | apply Hk].
    + by repeat constructor.
  - by split.
Qed.

Lemma run_schedule_avoids bad sched ts w :
  Forall (avoids bad) ts →
  let '(ts', w', t) := run_schedule sched ts w in
  Forall (avoids bad) ts' ∧ Forall (λ ie, marked bad ie.2 = false) t.
Proof.
  revert ts w. induction sched as [| i sched IH]; intros ts w Hts; simpl.
  - by split.
  - pose proof (pool_step_avoids bad i ts w Hts) as Hstep.
    destruct (pool_step i ts w) as [[ts1 w1] t1]. destruct Hstep as [Hts1 Ht1].
    specialize (IH ts1 w1 Hts1).
    destruct (run_schedule sched ts1 w1) as [[ts2 w2] t2]. destruct IH as [Hts2 Ht2].
    split; [done |]. by apply Forall_app.
Qed.

Lemma drain_avoids bad i ts w :
  Forall (avoids bad) ts →
  Forall (λ ie, marked bad ie.2 = false) (drain i ts w).2.
Proof.
  revert i w. induction ts as [| p ps IH]; intros i w Hts; simpl.
  - constructor.
  - apply Forall_cons in Hts as [Hp Hps].
    pose proof (avoids_run bad p w Hp) as Ht1.
    destruct (run_call p w) as [[r w1] t1]. simpl in Ht1.
    specialize (IH (S i) w1 Hps).
    destruct (drain (S i) ps w1) as [[rs w2] t2]. simpl in *.
    apply Forall_app. split; [| done]. by apply Forall_fmap.
Qed.

Lemma run_pool_avoids bad sched ts w :
  Forall (avoids bad) ts →
  Forall (λ ie, marked bad ie.2 = false) (run_pool sched ts w).2.
Proof.
  intros Hts. unfold run_pool.
  pose proof (run_schedule_avoids bad sched ts w Hts) as Hs.
  destruct (run_schedule sched ts w) as [[ts1 w1] t1]. destruct Hs as [Hts1 Ht1].
  pose proof (drain_avoids bad 0 ts1 w1 Hts1) as Hd.
  destruct (drain 0 ts1 w1) as [[rs w2] t2]. simpl in *.
  by apply Forall_app.
Qed.

End pool.

(** ** One cleanup pass *)

Lemma unit_events_tagged (t : list (nat * event)) :
  unit_events ((λ ie, UnitEv ie.1 ie.2) <$> t) = t.
Proof.
  unfold unit_events. induction t as [| [i e] t IH]; csimpl; [done |].
  by rewrite IH.
Qed.

Lemma passes_tagged (t : list (nat * event)) :
  passes ((λ ie, UnitEv ie.1 ie.2) <$> t) = [].
Proof. unfold passes. by induction t as [| [i e] t IH]; csimpl. Qed.

Lemma watch_versions_tagged (t : list (nat * event)) :
  watch_versions ((λ ie, UnitEv ie.1 ie.2) <$> t) = [].
Proof. unfold watch_versions. by induction t as [| [i e] t IH]; csimpl. Qed.

Lemma watch_streams_tagged (t : list (nat * event)) :
  watch_streams ((λ ie, UnitEv ie.1 ie.2) <$> t) = [].
Proof. unfold watch_streams. by induction t as [| [i e] t IH]; csimpl. Qed.

Lemma listed_versions_tagged (t : list (nat * event)) :
  listed_versions ((λ ie, UnitEv ie.1 ie.2) <$> t) = [].
Proof. unfold listed_versions. by induction t as [| [i e] t IH]; csimpl. Qed.

Lemma count_errors_total (reports : list (category * option error)) :
  count_errors ClaimAllocations reports + count_errors CDIFiles reports
  + count_errors MpsControlDaemonArtifacts reports
  = length (filter is_Some reports.*2).
Proof.
  unfold count_errors. induction reports as [| [cat r] reports IH]; [done |].
  rewrite fmap_cons, !filter_cons. cbn [fst snd].
  destruct cat, r as [e |]; repeat case_decide; cbn [length]; try lia;
    exfalso; intuition (eauto; congruence || by eapply is_Some_None).
Qed.

Lemma tagged_snd {A B} (b : B) (l : list A) : ((λ a, (b, a)) <$> l).*2 = l.
Proof. induction l as [| a l IH]; csimpl; [done |]. by rewrite IH. Qed.

Lemma tagged_fst_length {A B} (b : B) (l : list A) :
  length ((λ a, (b, a)) <$> l).*1 = length l.
Proof. by rewrite !length_fmap. Qed.

Section pass.
Context `{Collaborators W}.

(** What a run of [cleanupStaleState] amounts to: the goroutines of the
    orphaned claims run as a pool, and the errors they report are counted. *)
Lemma run_cleanupStaleState nas scheds (w : W) :
  run_pass (cleanupStaleState nas) scheds w =
  let '(rs, w', t) := run_pool (hd [] scheds) (cleanupClaimAllocations nas) w in
  let n := length (filter is_Some rs) in
  (if decide (n ≠ 0) then Some (Errorf "encountered %v errors" [FmtInt n]) else None,
   (w', tl scheds),
   EnterEv nas :: ((λ ie, UnitEv ie.1 ie.2) <$> t)).
Proof.
  unfold run_pass, cleanupStaleState, cleanupCDIFiles,
    cleanupMpsControlDaemonArtifacts.
  cbn [bind perform run exec_pass fst snd fmap list_fmap].
  rewrite !(right_id_L [] (++)), tagged_snd.
  pose proof (run_pool_complete (hd [] scheds) (cleanupClaimAllocations nas) w) as Hc.
  destruct (run_pool (hd [] scheds) (cleanupClaimAllocations nas) w) as [[rs w'] t].
  destruct Hc as [Hlen _].
  rewrite count_errors_total, snd_zip by (rewrite tagged_fst_length; lia).
  destruct (decide _); cbn [run app]; by rewrite (right_id_L [] (++)).
Qed.

End pass.

Lemma stops_at_skip event events consumed errs err :
  Type_ event ≠ Modified →
  stops_at events consumed errs err →
  stops_at (event :: events) (S consumed) errs err.
Proof.
  intros Hty [Hinit Herr]. split; [done |]. destruct err as [e |].
  - destruct Herr as (event' & Hlast & Hmod & Hdec & Hobj).
    exists event'. cbn [take].
    destruct (take consumed events) as [| event0 taken] eqn:Hdone; [done |].
    split; [done |]. split; [done |]. split; [| done].
    cbn [removelast]. destruct taken; constructor; try done; by intros ?.
  - destruct Herr as (-> & Hdec & Hnone). split; [done |]. split; [| done].
    constructor; [by intros ? | done].
Qed.

Lemma stops_at_pass event events nas consumed errs err :
  Type_ event = Modified → Object_ event = ObjNodeAllocationState nas →
  stops_at events consumed errs err →
  stops_at (event :: events) (S consumed) (None :: errs) err.
Proof.
  intros Hty Hnas [Hinit Herr].
  assert (decodes event) as Hevent by (intros _; by exists nas).
  split.
  { cbn [removelast]. destruct errs; [constructor | by constructor]. }
  destruct err as [e |].
  - destruct Herr as (event' & Hlast & Hmod & Hdec & Hobj).
    exists event'. cbn [take].
    destruct (take consumed events) as [| event0 taken] eqn:Hdone; [done |].
    split; [done |]. split; [done |]. split.
    { cbn [removelast]. destruct taken; constructor; done. }
    destruct (Object_ event') as [nas' | message].
    + destruct errs; [done | done].
    + destruct Hobj as [-> Hnone]. split; [done | by constructor].
  - destruct Herr as (-> & Hdec & Hnone). split; [done |]. split; by constructor.
Qed.

Section reconciliation.
Context `{Collaborators W}.

(** C3. A cleanup pass, whatever the record snapshot, the world and the
    schedule of its goroutines: every goroutine started by one of the three
    cleanup categories has run to its end when the pass concludes, and has
    left one report; the pass returns an error exactly when the number of
    errors reported is not zero, and that error is the single
    [encountered %v errors] carrying the number. *)
Theorem cleanupStaleState_aggregates nas scheds (w : W) :
  let units := cleanupClaimAllocations nas ++ cleanupCDIFiles nas
               ++ cleanupMpsControlDaemonArtifacts nas in
  let '(err, _, t) := run_pass (cleanupStaleState nas) scheds w in
  ∃ reports : list (option error),
    length reports = length units
    ∧ (∀ j p, units !! j = Some p →
         ∃ r, reports !! j = Some r
              ∧ finishes p (thread_events j (unit_events t)) r)
    ∧ (err = None ↔ length (filter is_Some reports) = 0)
    ∧ (∀ e, err = Some e →
         e = Errorf "encountered %v errors"
               [FmtInt (length (filter is_Some reports))]).
Proof.
  unfold cleanupCDIFiles, cleanupMpsControlDaemonArtifacts.
  rewrite !(right_id_L [] (++)). cbv zeta.
  rewrite run_cleanupStaleState.
  pose proof (run_pool_complete (hd [] scheds) (cleanupClaimAllocations nas) w) as Hc.
  destruct (run_pool (hd [] scheds) (cleanupClaimAllocations nas) w) as [[rs w'] t].
  destruct Hc as [Hlen Hfin]. cbv zeta.
  exists rs. split; [done |]. split.
  { intros j p Hj. unfold unit_events. cbn [omap list_omap].
    fold (unit_events ((λ ie, UnitEv ie.1 ie.2) <$> t)).
    rewrite unit_events_tagged. by apply Hfin. }
  destruct (decide (length (filter is_Some rs) ≠ 0)) as [Hn | Hn].
  - split; [split; [done | lia] |]. by intros e [= <-].
  - split; [split; [lia | done] |]. by intros e [=].
Qed.

(** The loop over the watch's events runs its passes on the records of the
    modification events, in order and without leaving one out; it stops
    early only with an error. *)
Lemma range_ResultChan_passes (events : list Event) scheds (w : W) :
  let '(err, _, t) := run_pass (range_ResultChan events) scheds w in
  passes t `prefix_of` triggers events
  ∧ (err = None → passes t = triggers events ∧ Forall decodes events)
  ∧ watch_versions t = [] ∧ watch_streams t = [].
Proof.
  revert scheds w. unfold run_pass.
  induction events as [| event events IH]; intros scheds w.
  - simpl. split; [done |]. split; [| done]. intros _. split; [done | constructor].
  - cbn [range_ResultChan]. unfold triggers. cbn [omap list_omap].
    fold (triggers events).
    destruct (decide (Type_ event ≠ Modified)) as [Hty | Hty].
    + rewrite decide_False by done.
      specialize (IH scheds w).
      destruct (run exec_pass (range_ResultChan events) (w, scheds)) as [[err s] t].
      destruct IH as (Hpre & Hnone & Hw & Hs). split; [done |]. split; [| done].
      intros Herr. destruct (Hnone Herr) as [-> Hdec]. split; [done |].
      constructor; [| done]. intros ?. done.
    + apply dec_stable in Hty. rewrite decide_True by done.
      destruct (Object_ event) as [nas | message] eqn:Hobj.
      * rewrite run_bind.
        pose proof (run_cleanupStaleState nas scheds w) as Hpass.
        unfold run_pass in Hpass. rewrite Hpass. clear Hpass.
        destruct (run_pool (hd [] scheds) (cleanupClaimAllocations nas) w)
          as [[rs w'] t1]. cbv zeta.
        destruct (decide (length (filter is_Some rs) ≠ 0)) as [Hn | Hn].
        -- cbn [run]. rewrite (right_id_L [] (++)).
           unfold passes, watch_versions, watch_streams. cbn [omap list_omap].
           fold (passes ((λ ie, UnitEv ie.1 ie.2) <$> t1)).
           fold (watch_versions ((λ ie, UnitEv ie.1 ie.2) <$> t1)).
           fold (watch_streams ((λ ie, UnitEv ie.1 ie.2) <$> t1)).
           rewrite passes_tagged, watch_versions_tagged, watch_streams_tagged.
           split; [| done]. apply prefix_cons, prefix_nil.
        -- specialize (IH (tl scheds) w').
           destruct (run exec_pass (range_ResultChan events) (w', tl scheds))
             as [[err s] t2].
           destruct IH as (Hpre & Hnone & Hw & Hs).
           unfold passes, watch_versions, watch_streams. cbn [app omap list_omap].
           rewrite !omap_app.
           fold (passes ((λ ie, UnitEv ie.1 ie.2) <$> t1)) (passes t2).
           fold (watch_versions ((λ ie, UnitEv ie.1 ie.2) <$> t1)) (watch_versions t2).
           fold (watch_streams ((λ ie, UnitEv ie.1 ie.2) <$> t1)) (watch_streams t2).
           rewrite passes_tagged, watch_versions_tagged, watch_streams_tagged.
           cbn [app].
           split; [by apply prefix_cons |]. split; [| done].
           intros Herr. destruct (Hnone Herr) as [-> Hdec]. split; [done |].
           constructor; [| done]. intros _. eauto.
      * cbn [run]. split; [apply prefix_nil |]. split; done.
Qed.

Lemma cleanupStaleStateOnce_version scheds (w : W) :
  let '((rv, err), _, t) := run_pass cleanupStaleStateOnce scheds w in
  watch_versions t = []
  ∧ (err = None → listed_versions t = [rv])
  ∧ (err ≠ None → rv = "").
Proof.
  unfold run_pass, cleanupStaleStateOnce.
  cbn [bind perform run exec_pass exec fst snd app].
  destruct (List _ w) as [[list [e |]] w1]; cbn [bind run fst snd app].
  { split; [done |]. split; done. }
  destruct (Items list) as [| nas [| nas' items]]; cbn [bind run app].
  { split; [done |]. split; done. }
  2: { split; [done |]. split; done. }
  rewrite run_bind.
  pose proof (run_cleanupStaleState nas scheds w1) as Hpass.
  unfold run_pass in Hpass. rewrite Hpass. clear Hpass.
  destruct (run_pool (hd [] scheds) (cleanupClaimAllocations nas) w1)
    as [[rs w'] t1]. cbv zeta.
  unfold watch_versions, listed_versions.
  destruct (decide (length (filter is_Some rs) ≠ 0)) as [Hn | Hn];
    cbn [run app omap list_omap fst snd]; rewrite !omap_app;
    fold (watch_versions ((λ ie, UnitEv ie.1 ie.2) <$> t1));
    fold (listed_versions ((λ ie, UnitEv ie.1 ie.2) <$> t1));
    rewrite watch_versions_tagged, listed_versions_tagged;
    (split; [done |]); split; done.
Qed.

Lemma cleanupStaleStateContinuously_watch rv prev scheds (w : W) :
  let '(err, _, t) := run_pass (cleanupStaleStateContinuously rv prev) scheds w in
  watch_versions t = [rv]
  ∧ ∀ events, watch_streams t = [events] →
      passes t `prefix_of` triggers events
      ∧ (err = None → passes t = triggers events ∧ Forall decodes events).
Proof.
  unfold run_pass, cleanupStaleStateContinuously.
  cbn [bind perform run exec_pass exec fst snd app].
  destruct (OpenWatch _ w) as [[watcher [e |]] w1]; cbn [bind run fst snd app].
  { split; [done |]. intros events [=]. }
  rewrite run_bind.
  pose proof (range_ResultChan_passes watcher scheds w1) as Hloop.
  unfold run_pass in Hloop.
  destruct (run exec_pass (range_ResultChan watcher) (w1, scheds)) as [[err s] t1].
  destruct Hloop as (Hpre & Hnone & Hw & Hs). destruct s as [w2 scheds2].
  cbn [bind perform run exec_pass exec fst snd app].
  unfold watch_versions, watch_streams, passes.
  cbn [omap list_omap fst snd]. rewrite !omap_app.
  fold (watch_versions t1) (watch_streams t1) (passes t1).
  rewrite Hw, Hs. cbn [omap list_omap app]. rewrite (right_id_L [] (++)).
  split; [done |]. by intros events [= <-].
Qed.

(** The loop of the code against the specification's reading: the loop runs
    the passes of the records of the events it takes, one after the other and
    nothing else, and stops as [stops_at] says. *)
Lemma range_ResultChan_run_passes (events : list Event) (s : W * list (list nat)) :
  let '(err, s', t) := run exec_pass (range_ResultChan events) s in
  ∃ consumed,
    let '(errs, s'', t') := run_passes (triggers (take consumed events)) s in
    s' = s'' ∧ t = t' ∧ stops_at events consumed errs err.
Proof.
  revert s. induction events as [| event events IH]; intros s.
  { exists 0. cbn. split; [done |]. split; [done |]. split; [constructor |].
    split; [done |]. split; constructor. }
  cbn [range_ResultChan].
  destruct (decide (Type_ event ≠ Modified)) as [Hty | Hty].
  - specialize (IH s).
    destruct (run exec_pass (range_ResultChan events) s) as [[err s'] t].
    destruct IH as [consumed IH]. exists (S consumed).
    cbn [take]. unfold triggers in *. cbn [omap list_omap].
    rewrite decide_False by done.
    destruct (run_passes _ s) as [[errs s''] t'].
    destruct IH as (-> & -> & Hstops). split; [done |]. split; [done |].
    by apply stops_at_skip.
  - apply dec_stable in Hty.
    destruct (Object_ event) as [nas | message] eqn:Hobj.
    + rewrite run_bind.
      destruct (run exec_pass (cleanupStaleState nas) s) as [[[e |] s1] t1] eqn:Hpass.
      * exists 1. cbn [take run fst snd]. unfold triggers. cbn [omap list_omap].
        rewrite decide_True, Hobj by done. cbn [run_passes]. rewrite Hpass.
        split; [done |]. split; [done |]. split; [constructor |].
        exists event. rewrite Hobj. split; [done |]. split; [done |].
        split; [constructor | done].
      * specialize (IH s1).
        destruct (run exec_pass (range_ResultChan events) s1) as [[err s'] t].
        destruct IH as [consumed IH]. exists (S consumed).
        cbn [take]. unfold triggers in *. cbn [omap list_omap].
        rewrite decide_True, Hobj by done. cbn [run_passes]. rewrite Hpass.
        destruct (run_passes _ s1) as [[errs s''] t'].
        destruct IH as (-> & -> & Hstops). split; [done |]. split; [done |].
        by eapply stops_at_pass.
    + exists 1. cbn [take run]. unfold triggers. cbn [omap list_omap].
      rewrite decide_True, Hobj by done. cbn [run_passes].
      split; [done |]. split; [done |]. split; [constructor |].
      exists event. rewrite Hobj. split; [done |]. split; [done |].
      split; [constructor |]. split; [done | constructor].
Qed.

Lemma run_passes_passes (records : list NodeAllocationState)
    (s : W * list (list nat)) :
  passes (run_passes records s).2 = records.
Proof.
  revert s. induction records as [| nas records IH]; intros s; [done |].
  cbn [run_passes]. destruct s as [w scheds].
  pose proof (run_cleanupStaleState nas scheds w) as Hrun. unfold run_pass in Hrun.
  rewrite Hrun. destruct (run_pool _ _ _) as [[rs w'] t]. cbv zeta.
  specialize (IH (w', tl scheds)).
  destruct (run_passes records (w', tl scheds)) as [[errs s2] t2]. cbn [snd] in *.
  unfold passes in *. cbn [app omap list_omap]. rewrite omap_app.
  fold (passes ((λ ie, UnitEv ie.1 ie.2) <$> t)). by rewrite passes_tagged, IH.
Qed.

(** C8, as the code has it.  While the watch is open, a cleanup pass runs
    on the record of every modification event, in order, and on nothing
    else: the watch phase is the run of these passes, one after the other,
    between the opening of the watch and the stopping of the watcher.  The
    loop ends before the stream does only with an error, which is the error
    of the pass that failed, the last one run, or the decoding error of a
    modification event that does not carry the record, before which no pass
    has failed; when the watch could not be opened, no pass runs.  The watch
    is opened from the version token that was passed in, and the loop passes
    in the token of the preceding resync list when the resync succeeded, and
    the empty token when the resync returned an error. *)
Theorem watch_passes_and_version scheds (w : W) :
  (∀ rv prev,
     let '(err, _, t) := run_pass (cleanupStaleStateContinuously rv prev) scheds w in
     watch_versions t = [rv]
     ∧ ∀ events, watch_streams t = [events] →
         passes t `prefix_of` triggers events
         ∧ (err = None → passes t = triggers events ∧ Forall decodes events))
  ∧ (∀ rv prev,
       let opts := {| Watch := true; OptResourceVersion := rv;
                      FieldSelector := "metadata.name=" +:+ Name (nascrd w);
                      TimeoutSeconds :=
                        if prev is Some _
                        then Some (Z.of_nat CleanupTimeoutSecondsOnError)
                        else None |} in
       let '((events, werr), w1) := OpenWatch opts w in
       let '(err, s', t) := run_pass (cleanupStaleStateContinuously rv prev) scheds w in
       match werr with
       | Some e =>
           passes t = []
           ∧ err = Some (Errorw "error setting up watch to cleanup allocations: %w" [] e)
       | None =>
           ∃ consumed,
             let '(errs, (w2, scheds2), tp) :=
               run_passes (triggers (take consumed events)) (w1, scheds) in
             s' = (Stop w2, scheds2)
             ∧ t = MainEv (Ev load_nascrd (nascrd w))
                   :: MainEv (Ev (nasclient_Watch opts) (events, None))
                   :: tp ++ [MainEv (Ev watcher_Stop tt)]
             ∧ passes t = triggers (take consumed events)
             ∧ stops_at events consumed errs err
       end)
  ∧ (let '((rv, err), _, t1) := run_pass cleanupStaleStateOnce scheds w in
     let '(_, _, t) := run_pass CleanupStaleStateContinuously_body scheds w in
     t1 `prefix_of` t
     ∧ watch_versions t1 = []
     ∧ watch_versions t = [rv]
     ∧ (err = None → listed_versions t1 = [rv])
     ∧ (err ≠ None → rv = "")).
Proof.
  split; [intros rv prev; apply cleanupStaleStateContinuously_watch |]. split.
  { intros rv prev. cbv zeta. unfold run_pass, cleanupStaleStateContinuously.
    cbn [bind perform run exec_pass exec fst snd app].
    destruct (OpenWatch _ w) as [[events [e |]] w1]; cbn [bind run fst snd app].
    { done. }
    rewrite run_bind.
    pose proof (range_ResultChan_run_passes events (w1, scheds)) as Hloop.
    destruct (run exec_pass (range_ResultChan events) (w1, scheds))
      as [[err [w2 scheds2]] t1].
    destruct Hloop as [consumed Hloop]. exists consumed.
    pose proof (run_passes_passes (triggers (take consumed events)) (w1, scheds))
      as Hpasses.
    destruct (run_passes _ (w1, scheds)) as [[errs [w2' scheds2']] tp].
    destruct Hloop as ([= <- <-] & <- & Hstops). cbn [snd] in Hpasses.
    cbn [bind perform run exec_pass exec fst snd app].
    split; [done |]. split; [done |]. split; [| done].
    unfold passes in *. cbn [omap list_omap]. rewrite omap_app, Hpasses.
    cbn [omap list_omap]. by rewrite (right_id_L [] (++)). }
  pose proof (cleanupStaleStateOnce_version scheds w) as Honce.
  unfold CleanupStaleStateContinuously_body, run_pass in *.
  rewrite run_bind.
  destruct (run exec_pass cleanupStaleStateOnce (w, scheds))
    as [[[rv err] [w1 scheds1]] t1].
  destruct Honce as (Hw1 & Hok & Hfail).
  rewrite run_bind.
  pose proof (cleanupStaleStateContinuously_watch rv err scheds1 w1) as Hwatch.
  unfold run_pass in Hwatch.
  destruct (run exec_pass (cleanupStaleStateContinuously rv err) (w1, scheds1))
    as [[err2 [w2 scheds2]] t2].
  destruct Hwatch as [Hw2 _].
  assert (∀ t3, watch_versions (t1 ++ t2 ++ t3) = [rv] ++ watch_versions t3) as Hall.
  { intros t3. unfold watch_versions. rewrite !omap_app.
    fold (watch_versions t1) (watch_versions t2). by rewrite Hw1, Hw2. }
  destruct err2 as [e2 |]; cbn [perform run exec_pass exec fst snd app].
  - split; [by apply prefix_app_r |]. split; [done |]. split; [| done].
    by rewrite Hall.
  - split; [by apply prefix_app_r |]. split; [done |]. split; [| done].
    by rewrite Hall.
Qed.

End reconciliation.

Section request_path.
Context `{Collaborators W}.

(** ** Construction *)

Lemma NewDriver_closure_run (d : option driver) (w : W) :
  let '((d', err), _, t) := run_call (NewDriver_closure d) w in
  attempt_trace t err ∧ (err = None → d' = Some Driver).
Proof.
  unfold run_call, NewDriver_closure. call_step.
  destruct (GetOrCreate w) as [[e |] w1]; [split; [constructor | done] |].
  call_step.
  destruct (UpdateStatus _ w1) as [[e |] w2]; [split; [constructor | done] |].
  call_step.
  destruct (InitDeviceState w2) as [[e |] w3]; [split; [constructor | done] |].
  call_step. destruct (GetUpdatedSpec w3) as [spec w4]. call_step.
  destruct (Update spec w4) as [[e |] w5]; [split; [constructor | done] |].
  call_step.
  destruct (UpdateStatus _ w5) as [[e |] w6]; split; (constructor || done).
Qed.

Lemma NewDriver_retry_run (n : nat) (d : option driver) lastErr (w : W) :
  let '((d', err), _, t) :=
    run exec_ev (OnError (S n) IsConflict NewDriver_closure d lastErr) w in
  construction (S n) t err ∧ (err = None → d' = Some Driver).
Proof.
  revert d lastErr w. induction n as [| n IH]; intros d lastErr w;
    rewrite run_OnError_S;
    pose proof (NewDriver_closure_run d w) as Hatt; unfold run_call in Hatt;
    destruct (run exec_ev (NewDriver_closure d) w) as [[[d1 [e |]] w1] t1];
    destruct Hatt as [Htr Hd]; cbn [fst snd].
  - destruct (IsConflict e) eqn:He.
    + rewrite run_OnError_0, (right_id_L [] (++)).
      split; [by apply construction_exhausted | done].
    + split; [by apply construction_abort | done].
  - split; [by apply construction_success | done].
  - destruct (IsConflict e) eqn:He.
    + specialize (IH d1 (Some e) w1).
      destruct (run exec_ev (OnError (S n) IsConflict NewDriver_closure d1 (Some e)) w1)
        as [[[d2 err2] w2] t2].
      destruct IH as [Hc Hd2]. split; [by eapply construction_retry | done].
    + split; [by apply construction_abort | done].
  - split; [by apply construction_success | done].
Qed.

(** C6. Whatever the collaborators do, a run of [NewDriver] is a sequence of
    at most [DefaultRetry] attempts of get-or-create, mark NotReady,
    initialise, write back, mark Ready.  An attempt that fails with a conflict
    error is followed by a new attempt from get-or-create, until the budget is
    used up; an attempt that fails with another error is the last one.  When
    the last attempt fails, the error is returned with a nil driver and the
    reconciliation loop is not started; when it succeeds, the last thing
    [NewDriver] does is the [go] statement, after which it returns the
    driver. *)
Theorem NewDriver_construction (w : W) :
  let '(r, _, t) := run_call NewDriver w in
  ∃ attempts err,
    construction DefaultRetry attempts err
    ∧ match err with
      | None =>
          r = (Some Driver, None)
          ∧ t = attempts ++ [Ev go_CleanupStaleStateContinuously tt]
      | Some e =>
          r = (None, Some e)
          ∧ t = attempts
          ∧ calls_of is_go t = []
      end.
Proof.
  unfold run_call, NewDriver, RetryOnConflict, DefaultRetry. rewrite run_bind.
  pose proof (NewDriver_retry_run 4 None None w) as Hretry.
  destruct (run exec_ev (OnError 5 IsConflict NewDriver_closure None None) w)
    as [[[d [e |]] w1] t1]; destruct Hretry as [Hc Hd].
  2: call_step.
  all: cbn [run app].
  - exists t1, (Some e). split; [done |]. rewrite (right_id_L [] (++)).
    split; [done |]. split; [done |].
    clear -Hc. unfold calls_of.
    induction Hc as [n t Ha | n t e' Ha _ | t e' Ha _ | n t e' t' err Ha _ _ IH].
    1-3: by inversion Ha.
    rewrite filter_app, IH. by inversion Ha.
  - exists t1, None. split; [done |]. by rewrite Hd.
Qed.

(** ** Prepare *)

Lemma Prepare_closure_run (claimUID : string) (prepared : list string) (w : W) :
  let '((prepared', err), _, t) := run_call (Prepare_closure claimUID prepared) w in
  calls_of is_state_Unprepare t = []
  ∧ ((update_results t = [] ∧ err ≠ None)
     ∨ (update_results t = [err]
        ∧ prepare_results t = [(prepared', None)]
        ∧ ∃ spec, last t = Some (Ev (nasclient_Update spec) err))).
Proof.
  unfold run_call, Prepare_closure. call_step.
  destruct (Get w) as [[e |] w1]; [split; [done | by left] |].
  call_step. call_step.
  destruct (Prepare_ _ _ w1) as [[prepared' [e |]] w2]; [split; [done | by left] |].
  call_step. destruct (GetUpdatedSpec w2) as [spec w3]. call_step.
  destruct (Update spec w3) as [[e |] w4]; (split; [done |]); right; eauto.
Qed.

Lemma Prepare_retry_run (claimUID : string) (n : nat) prepared lastErr (w : W) :
  let '((_, err), _, t) :=
    run exec_ev (OnError n IsConflict (Prepare_closure claimUID) prepared lastErr) w in
  calls_of is_state_Unprepare t = []
  ∧ length (update_results t) ≤ n
  ∧ (length (update_results t) = n → Forall conflicted (update_results t) →
     match n with
     | 0 => err = lastErr ∧ t = []
     | S _ =>
         ∃ e spec,
           err = Some e ∧ IsConflict e = true
           ∧ last t = Some (Ev (nasclient_Update spec) (Some e))
           ∧ length (prepare_results t) = n
           ∧ Forall (λ r, r.2 = None) (prepare_results t)
     end).
Proof.
  revert prepared lastErr w. induction n as [| n IH]; intros prepared lastErr w.
  { rewrite run_OnError_0. split; [done |]. split; [done |]. done. }
  rewrite run_OnError_S.
  pose proof (Prepare_closure_run claimUID prepared w) as Hatt.
  unfold run_call in Hatt.
  destruct (run exec_ev (Prepare_closure claimUID prepared) w)
    as [[[prepared1 err1] w1] t1].
  destruct Hatt as [Hun Hcases]. cbn [fst snd].
  destruct err1 as [e |].
  2: { destruct Hcases as [[_ ?] | (Hup & _ & _)]; [done |].
       split; [done |]. rewrite Hup. split; [simpl; lia |].
       intros _ Hall. apply Forall_cons in Hall as [(e & [=] & _) _]. }
  destruct (IsConflict e) eqn:He.
  2: { split; [done |].
       destruct Hcases as [[Hup _] | (Hup & _ & _)]; rewrite Hup;
         (split; [simpl; lia |]).
       - intros [=].
       - intros _ Hall. apply Forall_cons in Hall as [(e' & [= <-] & He') _].
         congruence. }
  specialize (IH prepared1 (Some e) w1).
  destruct (run exec_ev (OnError n IsConflict (Prepare_closure claimUID)
                           prepared1 (Some e)) w1) as [[[prepared2 err2] w2] t2].
  destruct IH as (Hun2 & Hlen2 & IH).
  unfold calls_of, update_results, prepare_results in *.
  rewrite filter_app, !omap_app.
  fold (update_results t1) (update_results t2)
       (prepare_results t1) (prepare_results t2) in *.
  split; [by rewrite Hun, Hun2 |].
  destruct Hcases as [[Hup _] | (Hup & Hprep & spec & Hlast)]; rewrite Hup.
  { split; [simpl; lia |]. simpl. intros Heq. lia. }
  split; [simpl; lia |]. simpl. intros [= Hlen] Hall.
  apply Forall_cons in Hall as [_ Hall].
  specialize (IH Hlen Hall). rewrite Hprep.
  destruct n as [| n].
  - destruct IH as [-> ->]. exists e, spec. rewrite (right_id_L [] (++)).
    repeat split; try done. by repeat constructor.
  - destruct IH as (e2 & spec2 & -> & He2 & Hlast2 & Hlen3 & Hok).
    exists e2, spec2. repeat split; try done.
    + rewrite last_app, Hlast2. done.
    + simpl. by rewrite Hlen3.
    + by constructor.
Qed.

(** C4, as the code has it.  When every one of the [DefaultRetry] writes of
    [Prepare] is refused with a conflict error, [Prepare] returns the last of
    these errors and no device list.  It has by then called the device
    state's [Prepare] once per attempt, each time with success, and it has
    made no call of the device state's [Unprepare]: the refused write is the
    last thing it did, so what the device state reserved stays reserved. *)
Theorem Prepare_conflicts_exhausted (claimUID : string) (w : W) r w' t :
  run_call (Prepare claimUID) w = (r, w', t) →
  length (update_results t) = DefaultRetry →
  Forall conflicted (update_results t) →
  ∃ e spec,
    r = ([], Some e) ∧ IsConflict e = true
    ∧ last t = Some (Ev (nasclient_Update spec) (Some e))
    ∧ length (prepare_results t) = DefaultRetry
    ∧ Forall (λ r, r.2 = None) (prepare_results t)
    ∧ calls_of is_state_Unprepare t = [].
Proof.
  unfold run_call, Prepare, RetryOnConflict, DefaultRetry. rewrite run_bind.
  pose proof (Prepare_retry_run claimUID 5 [] None w) as Hretry.
  destruct (run exec_ev (OnError 5 IsConflict (Prepare_closure claimUID) [] None) w)
    as [[[prepared err] w1] t1].
  destruct Hretry as (Hun & _ & Hretry).
  destruct err as [e |]; cbn [run]; rewrite (right_id_L [] (++));
    intros [= <- <- <-] Hlen Hall;
    destruct (Hretry Hlen Hall) as (e' & spec & [= <-] & He & Hlast & Hlen' & Hok).
  exists e, spec. done.
Qed.

(** C10. [Prepare] looks up [AllocatedClaims[claimUID]] and hands the
    result to the device state without testing whether the key exists.  For a
    claim that the refreshed record does not list as allocated, the calls that
    follow the refresh are the read of the mirror and the device state's
    [Prepare] with the zero value of the allocation details: in every attempt
    (a run of the closure), and so at the start of [Prepare]. *)
Theorem Prepare_passes_zero_allocation (claimUID : string) (w w1 : W) :
  Get w = (None, w1) →
  AllocatedClaims (Spec (nascrd w1)) !! claimUID = None →
  let delegated :=
    [Ev nasclient_Get None; Ev load_nascrd (nascrd w1);
     Ev (state_Prepare claimUID AllocatedDevices_zero)
       (Prepare_ claimUID AllocatedDevices_zero w1).1] in
  (∀ prepared,
     ∃ t, (run_call (Prepare_closure claimUID prepared) w).2 = delegated ++ t)
  ∧ ∃ t, (run_call (Prepare claimUID) w).2 = delegated ++ t.
Proof.
  intros Hget Hnone delegated. subst delegated. cbn [app].
  assert (∀ prepared,
    ∃ t, (run_call (Prepare_closure claimUID prepared) w).2
         = Ev nasclient_Get None
           :: Ev load_nascrd (nascrd w1)
           :: Ev (state_Prepare claimUID AllocatedDevices_zero)
                (Prepare_ claimUID AllocatedDevices_zero w1).1
           :: t) as Hclosure.
  { intros prepared. unfold run_call, Prepare_closure.
    call_step. rewrite Hget. call_step. call_step.
    unfold go_index. rewrite Hnone. cbn [default].
    destruct (Prepare_ claimUID AllocatedDevices_zero w1) as [[prepared' [e |]] w2].
    - cbn [run snd fst]. eauto.
    - call_step. destruct (GetUpdatedSpec w2) as [spec w3]. call_step.
      destruct (Update spec w3) as [[e |] w4]; cbn [run snd fst]; eauto. }
  split; [done |].
  unfold run_call, Prepare, RetryOnConflict, DefaultRetry.
  rewrite run_bind, run_OnError_S.
  destruct (Hclosure []) as [t1 Ht1]. unfold run_call in Ht1.
  destruct (run exec_ev (Prepare_closure claimUID []) w) as [[[prepared err] w2] t2].
  cbn [snd] in Ht1. subst t2. cbn [fst snd].
  destruct err as [e |]; [destruct (IsConflict e) |].
  - destruct_run. destruct_run. cbn [snd app]. eauto.
  - destruct_run. cbn [snd app]. eauto.
  - destruct_run. cbn [snd app]. eauto.
Qed.

(** ** IsPrepared and the RPC surface *)

(** C9. On a record without an entry for the claim, [IsPrepared] answers
    "not prepared" with no device list and no error; the refresh and the read
    of the mirror are the only things it does, so the world it leaves is the
    one the refresh left. *)
Theorem IsPrepared_not_prepared (claimUID : string) (w w' : W) :
  Get w = (None, w') →
  PreparedClaims (Spec (nascrd w')) !! claimUID = None →
  run_call (IsPrepared claimUID) w
  = ((false, [], None), w', [Ev nasclient_Get None; Ev load_nascrd (nascrd w')]).
Proof.
  intros Hget Hnone. unfold run_call, IsPrepared.
  call_step. rewrite Hget. call_step. by rewrite Hnone.
Qed.


(** C7. [NodeUnprepareResource] makes no call at all, whatever the request:
    it returns the empty response and no error, its trace is empty, and the
    world (record, mirror, device state) is the one it found. *)
Theorem NodeUnprepareResource_is_noop (req : NodeUnprepareResourceRequest) (w : W) :
  run_call (NodeUnprepareResource req) w
  = ((Some EmptyNodeUnprepareResourceResponse, None), w, [])
  ∧ ∀ bad, avoids bad (NodeUnprepareResource req).
Proof.
  split.
  - unfold run_call, NodeUnprepareResource. by cbn [run].
  - intros bad. unfold NodeUnprepareResource. by cbn [avoids].
Qed.

End request_path.

(** ** Two prepare requests in the world built from the specification *)

Section model.
Import Model.
Implicit Types (w : World) (claimUID : string).

Lemma reserved_at_most_refl claimUID w : reserved_at_most claimUID w w.
Proof. by left. Qed.


Lemma interfere_frame e w :
  reservations (interfere e w) = reservations w
  ∧ failing (interfere e w) = failing w
  ∧ mirror (interfere e w) = mirror w
  ∧ env (interfere e w) = env w
  ∧ stored_prepared (interfere e w) = stored_prepared w.
Proof.
  unfold interfere, stored_prepared. destruct e as [| | allocated]; try done.
  destruct (server w) as [s |] eqn:Hs; cbn; by rewrite ?Hs.
Qed.

Lemma model_Get w :
  let '(err, w') := Get w in
  reservations w' = reservations w
  ∧ stored_prepared w' = stored_prepared w
  ∧ match err with
    | None => stored_prepared w' = Some (PreparedClaims (Spec (mirror w')))
    | Some e => IsConflict e = false
    end.
Proof.
  cbn [Get world]. unfold client_call.
  assert (∀ w0, let '(err, w') := get w0 in
     reservations w' = reservations w0
     ∧ stored_prepared w' = stored_prepared w0
     ∧ match err with
       | None => stored_prepared w' = Some (PreparedClaims (Spec (mirror w')))
       | Some e => IsConflict e = false
       end) as Hget.
  { intros w0. unfold get, stored_prepared.
    destruct (server w0) as [s |] eqn:Hs; cbn; by rewrite ?Hs. }
  destruct (env w) as [| [| | allocated] rest]; [apply Hget | | done |].
  - specialize (Hget (interfere Quiet (set_env rest w))).
    by destruct (get _) as [err w'].
  - pose proof (interfere_frame (ControlPlaneWrites allocated) (set_env rest w))
      as (Hr & _ & _ & _ & Hp).
    specialize (Hget (interfere (ControlPlaneWrites allocated) (set_env rest w))).
    destruct (get _) as [err w']. destruct Hget as (Hr' & Hp' & Herr).
    split; [by rewrite Hr', Hr |]. split; [by rewrite Hp', Hp |]. done.
Qed.

Lemma model_Update new w :
  let '(err, w') := Update new w in
  reservations w' = reservations w
  ∧ match err with
    | None => stored_prepared w' = Some (PreparedClaims new)
    | Some _ => stored_prepared w' = stored_prepared w
    end.
Proof.
  cbn [Update world]. unfold client_call.
  assert (∀ w0, let '(err, w') := update new w0 in
     reservations w' = reservations w0
     ∧ match err with
       | None => stored_prepared w' = Some (PreparedClaims new)
       | Some _ => stored_prepared w' = stored_prepared w0
       end) as Hup.
  { intros w0. unfold update, write, stored_prepared.
    destruct (server w0) as [s |] eqn:Hs; [| by rewrite Hs].
    case_decide; cbn; by rewrite ?Hs. }
  destruct (env w) as [| [| | allocated] rest]; [apply Hup | | done |].
  - specialize (Hup (interfere Quiet (set_env rest w))).
    by destruct (update new _) as [err w'].
  - pose proof (interfere_frame (ControlPlaneWrites allocated) (set_env rest w))
      as (Hr & _ & _ & _ & Hp).
    specialize (Hup (interfere (ControlPlaneWrites allocated) (set_env rest w))).
    destruct (update new _) as [[e |] w']; destruct Hup as (Hr' & Hp').
    + split; [by rewrite Hr', Hr | by rewrite Hp', Hp].
    + split; [by rewrite Hr', Hr | done].
Qed.


Lemma model_GetUpdatedSpec w :
  (GetUpdatedSpec w).2 = w ∧ PreparedClaims (GetUpdatedSpec w).1 = reservations w.
Proof. done. Qed.











End model.

(** ** The goroutines of a pass and the mutex *)

Lemma orphaned_spec (nas : NodeAllocationState) :
  NoDup (orphaned nas)
  ∧ ∀ claimUID,
      claimUID ∈ orphaned nas
      ↔ is_Some (PreparedClaims (Spec nas) !! claimUID)
        ∧ AllocatedClaims (Spec nas) !! claimUID = None.
Proof.
  unfold orphaned. split.
  - apply NoDup_filter, NoDup_fst_map_to_list.
  - intros claimUID. rewrite list_elem_of_filter, list_elem_of_fmap. split.
    + intros [Hnone ([c devices] & -> & Hin)]. split; [| done].
      apply elem_of_map_to_list in Hin. by exists devices.
    + intros [[devices Hsome] Hnone]. split; [done |].
      exists (claimUID, devices). split; [done |]. by apply elem_of_map_to_list.
Qed.

(** C5, as the code has it.  [Unprepare] makes no call of [d.Lock] on any
    path, so the goroutines of a cleanup pass run their [Unprepare] without
    the driver's mutex, under every schedule and in every world; the prepare
    request, in contrast, begins by taking the mutex and ends by releasing
    it.  In the pass over two orphaned claims scheduled as
    [0; 0; 0; 1; 1; 1; 1; 0], all four calls of the second [Unprepare] fall
    between two calls of the first. *)
Theorem Unprepare_takes_no_lock :
  (∀ claimUID, avoids is_mu_Lock (Unprepare claimUID))
  ∧ (∀ `(Collaborators W) nas scheds (w : W),
       Forall (λ ie, marked is_mu_Lock ie.2 = false)
         (unit_events (run_pass (cleanupStaleState nas) scheds w).2))
  ∧ (∀ `(Collaborators W) req (w : W),
       ∃ t, (run_call (NodePrepareResource req) w).2
            = Ev mu_Lock tt :: t ++ [Ev mu_Unlock tt])
  ∧ (unit_events
       (run_pass (cleanupStaleState (Model.mirror Model.two_orphans))
          [[0; 0; 0; 1; 1; 1; 1; 0]] Model.two_orphans).2).*1
    = [0; 0; 0; 1; 1; 1; 1; 0].
Proof.
  split; [apply Unprepare_avoids_lock |]. split; [| split].
  - intros W ? nas scheds w. rewrite run_cleanupStaleState.
    pose proof (run_pool_avoids is_mu_Lock (hd [] scheds)
                  (cleanupClaimAllocations nas) w) as Hpool.
    destruct (run_pool (hd [] scheds) (cleanupClaimAllocations nas) w)
      as [[rs w'] t].
    cbn [snd]. unfold unit_events. cbn [omap list_omap].
    fold (unit_events ((λ ie, UnitEv ie.1 ie.2) <$> t)).
    rewrite unit_events_tagged. apply Hpool.
    unfold cleanupClaimAllocations. apply Forall_fmap, Forall_forall.
    intros claimUID _. apply unprepare_claim_avoids_lock.
  - intros W ? req w. unfold run_call, NodePrepareResource. call_step.
    rewrite run_bind. destruct_run. call_step. cbn [run snd]. eauto.
  - vm_compute. reflexivity.
Qed.

(** ** A pass whose goroutines run in turn *)

Section in_turn.
Import Model.
Implicit Types (w : World) (claimUID : string).

Lemma model_Unprepare claimUID w :
  let '(err, w') := Unprepare_ claimUID w in
  stored_prepared w' = stored_prepared w
  ∧ match err with
    | None => reservations w' = delete claimUID (reservations w)
    | Some _ => reservations w' = reservations w
    end.
Proof. cbn [Unprepare_ world]. unfold unprepare. by case_decide. Qed.

(** An attempt of [Unprepare] leaves the reservations alone or releases the
    claim; when it succeeds, the claim is released and the stored record lists
    the reservations of the device state. *)
Lemma model_Unprepare_closure claimUID w :
  let '((_, err), w', _) := run_call (Unprepare_closure claimUID tt) w in
  delete claimUID (reservations w') = delete claimUID (reservations w)
  ∧ (err = None →
       reservations w' = delete claimUID (reservations w)
       ∧ stored_prepared w' = Some (reservations w')).
Proof.
  unfold run_call, Unprepare_closure. call_step.
  pose proof (model_Get w) as Hget.
  destruct (Get w) as [[e |] w1]; destruct Hget as (Hr1 & Hp1 & Herr1).
  { cbn [run]. split; [by rewrite Hr1 | done]. }
  call_step. pose proof (model_Unprepare claimUID w1) as Hun.
  destruct (Unprepare_ claimUID w1) as [[e |] w2]; destruct Hun as (Hp2 & Hr2).
  { cbn [run]. split; [by rewrite Hr2, Hr1 | done]. }
  call_step. pose proof (model_GetUpdatedSpec w2) as [Hw3 Hspec].
  destruct (GetUpdatedSpec w2) as [new w3]. cbn [fst snd] in Hw3, Hspec. subst w3.
  call_step. pose proof (model_Update new w2) as Hup.
  destruct (Update new w2) as [[e |] w4]; destruct Hup as (Hr4 & Hp4); cbn [run];
    rewrite Hr4, Hr2, Hr1, delete_delete_eq.
  - split; done.
  - split; [done |]. intros _. split; [done |]. by rewrite Hp4, Hspec, Hr2, Hr1.
Qed.

Lemma model_Unprepare_retry claimUID (n : nat) lastErr w u w' t :
  run exec_ev (OnError n IsConflict (Unprepare_closure claimUID) tt lastErr) w
  = ((u, None), w', t) →
  (n = 0 → lastErr ≠ None) →
  reservations w' = delete claimUID (reservations w)
  ∧ stored_prepared w' = Some (reservations w').
Proof.
  revert lastErr w t. induction n as [| n IH]; intros lastErr w t.
  { rewrite run_OnError_0. intros [= _ <- _ _] Hlast. by destruct Hlast. }
  rewrite run_OnError_S. intros Hrun _.
  pose proof (model_Unprepare_closure claimUID w) as Hatt.
  unfold run_call in Hatt.
  destruct (run exec_ev (Unprepare_closure claimUID tt) w)
    as [[[[] [e |]] w1] t1]; destruct Hatt as [Hdel Hok]; cbn [fst snd] in Hrun.
  2: { injection Hrun as <- <- <-. by apply Hok. }
  destruct (IsConflict e); [| done].
  destruct (run exec_ev (OnError n IsConflict (Unprepare_closure claimUID)
                           tt (Some e)) w1) as [[r2 w2] t2] eqn:Hrest.
  injection Hrun as -> -> <-.
  destruct (IH (Some e) w1 t2 Hrest) as [Hres Hp]; [done |].
  split; [by rewrite Hres, Hdel | done].
Qed.

Lemma model_unprepare_claim claimUID w w' t :
  run_call (unprepare_claim claimUID) w = (None, w', t) →
  reservations w' = delete claimUID (reservations w)
  ∧ stored_prepared w' = Some (reservations w').
Proof.
  unfold run_call, unprepare_claim, Unprepare, RetryOnConflict.
  rewrite !run_bind.
  destruct (run exec_ev (OnError DefaultRetry IsConflict
                           (Unprepare_closure claimUID) tt None) w)
    as [[[u [e |]] w1] t1] eqn:Hretry; cbn [run]; [done |].
  intros [= <- <-]. by eapply model_Unprepare_retry.
Qed.

Lemma drain_in_turn (claims : list string) (i : nat) w rs w' t :
  drain i (unprepare_claim <$> claims) w = (rs, w', t) →
  Forall (λ r, r = None) rs →
  stored_prepared w = Some (reservations w) →
  stored_prepared w' = Some (reservations w')
  ∧ ∀ claimUID,
      reservations w' !! claimUID
      = if decide (claimUID ∈ claims) then None else reservations w !! claimUID.
Proof.
  revert i w rs t. induction claims as [| c claims IH]; intros i w rs t.
  { cbn. intros [= <- <- <-] _ Hp. split; [done |]. intros claimUID.
    rewrite decide_False; [done | apply not_elem_of_nil]. }
  cbn [fmap list_fmap drain].
  destruct (run_call (unprepare_claim c) w) as [[r w1] t1] eqn:Hunit.
  destruct (drain (S i) (unprepare_claim <$> claims) w1) as [[rs1 w2] t2] eqn:Hrest.
  intros [= <- <- <-] Hall _. apply Forall_cons in Hall as [-> Hall].
  destruct (model_unprepare_claim _ _ _ _ Hunit) as [Hres1 Hp1].
  destruct (IH _ _ _ _ Hrest Hall Hp1) as [Hp2 Hres2].
  split; [done |]. intros claimUID. rewrite Hres2, Hres1.
  destruct (decide (claimUID = c)) as [-> | Hne].
  - rewrite lookup_delete_eq, (decide_True (P := c ∈ c :: claims)) by left.
    by case_decide.
  - rewrite lookup_delete_ne by done.
    destruct (decide (claimUID ∈ claims)) as [Hin | Hnin].
    + by rewrite decide_True by (by right).
    + rewrite decide_False; [done |]. by intros [? | ?]%elem_of_cons.
Qed.

(** The specification's orphan convergence.  The device state and the stored
    record hold the prepared claims of the snapshot, the goroutines of the
    pass run one after the other, and every [Unprepare] succeeds: then the
    stored record lists the prepared claims of the snapshot that are still
    allocated, unchanged, and no orphaned one, and so does the device
    state. *)
Lemma cleanupStaleState_in_turn_converges nas w w' scheds t :
  reservations w = PreparedClaims (Spec nas) →
  stored_prepared w = Some (PreparedClaims (Spec nas)) →
  run_pass (cleanupStaleState nas) [] w = (None, (w', scheds), t) →
  stored_prepared w' = Some (reservations w')
  ∧ ∀ claimUID,
      reservations w' !! claimUID
      = if AllocatedClaims (Spec nas) !! claimUID is Some _
        then PreparedClaims (Spec nas) !! claimUID else None.
Proof.
  intros Hres Hp. rewrite run_cleanupStaleState. cbn [hd]. unfold run_pool.
  cbn [run_schedule]. unfold cleanupClaimAllocations.
  destruct (drain 0 (unprepare_claim <$> orphaned nas) w) as [[rs w1] t1] eqn:Hdrain.
  cbv zeta. case_decide as Hn; [done |]. intros [= <- _ _].
  assert (Forall (λ r, r = None) rs) as Hall.
  { apply length_zero_iff_nil in Hn.
    apply Forall_forall. intros [e |] Hin; [| done].
    assert (Some e ∈ filter is_Some rs) as Hin'
      by (apply list_elem_of_filter; split; [by eexists | done]).
    rewrite Hn in Hin'. by apply not_elem_of_nil in Hin'. }
  destruct (drain_in_turn _ _ _ _ _ _ Hdrain Hall) as [Hp' Hres'];
    [by rewrite Hp, Hres |].
  split; [done |]. intros claimUID. rewrite Hres', Hres.
  pose proof (proj2 (orphaned_spec nas) claimUID) as Horph.
  destruct (AllocatedClaims (Spec nas) !! claimUID) as [allocation |] eqn:Halloc.
  - rewrite decide_False; [done |]. intros Hin. by apply Horph in Hin as [_ ?].
  - destruct (PreparedClaims (Spec nas) !! claimUID) as [devices |] eqn:Hprep.
    + rewrite decide_True; [done |]. apply Horph. by split; [eexists |].
    + by case_decide.
Qed.

End in_turn.

(** ** Evaluations in the world built from the specification *)

Section evaluations.
Import Model.

(** C1.  A pass starts one goroutine running [Unprepare] for every claim
    that the snapshot lists as prepared and not as allocated, and for no other
    claim.  The second half of the claim fails at this input: the record lists
    "claim-a" and "claim-b" as prepared and nothing as allocated; goroutine 0
    refreshes, releases "claim-a" and computes its spec; goroutine 1 then runs
    from its refresh to its write; goroutine 0 writes last.  Both [Unprepare]
    succeed and the device state holds no reservation, yet the stored record
    still lists "claim-b" as prepared. *)
Theorem cleanupStaleState_loses_update :
  (∀ nas,
     cleanupClaimAllocations nas = unprepare_claim <$> orphaned nas
     ∧ NoDup (orphaned nas)
     ∧ ∀ claimUID,
         claimUID ∈ orphaned nas
         ↔ is_Some (PreparedClaims (Spec nas) !! claimUID)
           ∧ AllocatedClaims (Spec nas) !! claimUID = None)
  ∧ (let '(err, (w', _), _) :=
       run_pass (cleanupStaleState (mirror two_orphans))
         [[0; 0; 0; 1; 1; 1; 1; 0]] two_orphans in
     orphaned (mirror two_orphans) = ["claim-a"; "claim-b"]
     ∧ err = None
     ∧ reservations w' = ∅
     ∧ stored_prepared w' = Some {["claim-b" := ["gpu-1"]]}).
Proof.
  split; [intros nas; split; [done | apply orphaned_spec] |].
  vm_compute. done.
Qed.

(** The specification's scenario for construction: on an empty record
    [NewDriver] succeeds, starts the reconciliation loop, and leaves the record
    Ready with no prepared claim. *)
Example NewDriver_on_fresh_node :
  let '(r, w, t) := run_call NewDriver (fresh "node-1") in
  r = (Some Driver, None)
  ∧ last t = Some (Ev go_CleanupStaleStateContinuously tt)
  ∧ status <$> server w = Some NodeAllocationStateStatusReady
  ∧ stored_prepared w = Some ∅.
Proof. vm_compute. done. Qed.

(** With goroutines that run one after the other the same pass removes both
    claims. *)
Example cleanupStaleState_in_turn :
  let '(err, (w', _), _) :=
    run_pass (cleanupStaleState (mirror two_orphans)) [] two_orphans in
  err = None ∧ reservations w' = ∅ ∧ stored_prepared w' = Some ∅.
Proof. vm_compute. done. Qed.

(** The specification's scenario of fan-out isolation: the release of
    "claim-b" fails, "claim-c" is removed, one error is reported. *)
Example cleanupStaleState_isolates_failure :
  let w := node ∅ (<["claim-b" := ["gpu-1"]]> (<["claim-c" := ["gpu-2"]]> ∅)) in
  let w := {| mirror := mirror w; server := server w; reservations := reservations w;
              failing := {["claim-b"]}; env := []; stream := [] |} in
  let '(err, (w', _), _) := run_pass (cleanupStaleState (mirror w)) [] w in
  err = Some (Errorf "encountered %v errors" [FmtInt 1])
  ∧ stored_prepared w' = Some {["claim-b" := ["gpu-1"]]}.
Proof. vm_compute. done. Qed.

(** C4 as stated fails: all five writes of [Prepare] are refused with a
    conflict error, [Prepare] returns the error, and the device state keeps the
    reservation of a claim that the stored record does not list as
    prepared. *)
Lemma Prepare_strands_reservation :
  let '(r, w', t) := run_call (Prepare "claim-1") contended in
  r = ([], Some conflict)
  ∧ update_results t = replicate DefaultRetry (Some conflict)
  ∧ reservations contended !! "claim-1" = None
  ∧ reservations w' !! "claim-1" = Some ["gpu-0"]
  ∧ stored_prepared w' = Some ∅.
Proof. vm_compute. done. Qed.

(** C8 as stated fails: the resync lists the record at version "4", its
    cleanup pass reports an error, and the watch that follows is opened from the
    empty version token. *)
Lemma watch_after_failed_resync :
  let '(_, _, t) := run_pass CleanupStaleStateContinuously_body [] stuck_orphan in
  listed_versions t = ["4"]
  ∧ watch_versions t = [""]
  ∧ watch_versions t ≠ listed_versions t.
Proof. vm_compute. done. Qed.


Lemma Prepare_conflicts_exhausted_witness :
  ∃ e spec,
    (run_call (Prepare "claim-1") contended).1.1 = ([], Some e)
    ∧ IsConflict e = true
    ∧ last (run_call (Prepare "claim-1") contended).2
      = Some (Ev (nasclient_Update spec) (Some e))
    ∧ length (prepare_results (run_call (Prepare "claim-1") contended).2) = DefaultRetry
    ∧ Forall (λ r, r.2 = None)
        (prepare_results (run_call (Prepare "claim-1") contended).2)
    ∧ calls_of is_state_Unprepare (run_call (Prepare "claim-1") contended).2 = [].
Proof.
  apply (Prepare_conflicts_exhausted "claim-1" contended _
           (run_call (Prepare "claim-1") contended).1.2).
  - vm_compute. reflexivity.
  - vm_compute. reflexivity.
  - assert (update_results (run_call (Prepare "claim-1") contended).2
            = replicate DefaultRetry (Some conflict)) as -> by (vm_compute; reflexivity).
    repeat constructor; by eexists.
Defined.

Lemma IsPrepared_not_prepared_witness :
  let w := node (<["claim-1" := ["gpu-0"]]> ∅) ∅ in
  run_call (IsPrepared "x") w
  = ((false, [], None), (Get w).2,
     [Ev nasclient_Get None; Ev load_nascrd (nascrd (Get w).2)])
  ∧ server (Get w).2 = server w
  ∧ reservations (Get w).2 = reservations w.
Proof.
  intros w. split; [| vm_compute; done].
  apply (IsPrepared_not_prepared "x" w (Get w).2); vm_compute; reflexivity.
Defined.

Lemma Prepare_passes_zero_allocation_witness :
  let w := node ∅ ∅ in
  let delegated :=
    [Ev nasclient_Get None; Ev load_nascrd (nascrd (Get w).2);
     Ev (state_Prepare "claim-9" AllocatedDevices_zero)
       (Prepare_ "claim-9" AllocatedDevices_zero (Get w).2).1] in
  (∀ prepared,
     ∃ t, (run_call (Prepare_closure "claim-9" prepared) w).2 = delegated ++ t)
  ∧ ∃ t, (run_call (Prepare "claim-9") w).2 = delegated ++ t.
Proof.
  intros w.
  apply (Prepare_passes_zero_allocation "claim-9" w (Get w).2); vm_compute; reflexivity.
Defined.

End evaluations.

(** ** Retried operations *)

Lemma OnError_retries `{Collaborators W} {S : Type}
    (att : list event → S * option error → Prop) (retriable : error → bool)
    (fn : S → Prog call (S * option error)) :
  (∀ s (w : W), att (run exec_ev (fn s) w).2 (run exec_ev (fn s) w).1.1) →
  ∀ n s lastErr (w : W),
    retries att retriable (Datatypes.S n)
      (run exec_ev (OnError (Datatypes.S n) retriable fn s lastErr) w).2
      (run exec_ev (OnError (Datatypes.S n) retriable fn s lastErr) w).1.1.
Proof.
  intros Hatt n. induction n as [| n IH]; intros s lastErr w;
    rewrite run_OnError_S; specialize (Hatt s w);
    destruct (run exec_ev (fn s) w) as [[[s1 [e |]] w1] t1]; cbn [fst snd] in *.
  - destruct (retriable e) eqn:He; cbn [fst snd].
    + rewrite run_OnError_0, (right_id_L [] (++)). cbn [fst snd].
      by apply retries_exhausted.
    + by apply retries_abort.
  - by apply retries_success.
  - destruct (retriable e) eqn:He; cbn [fst snd].
    + specialize (IH s1 (Some e) w1).
      destruct (run exec_ev (OnError (Datatypes.S n) retriable fn s1 (Some e)) w1)
        as [[r2 w2] t2]. cbn [fst snd] in *. by eapply retries_again.
    + by apply retries_abort.
  - by apply retries_success.
Qed.

(** A property of attempts that concatenation keeps holds of the whole
    trace. *)
Lemma retries_closed {S : Type} (att : list event → S * option error → Prop)
    retriable (Q : list event → Prop) n t r :
  retries att retriable n t r →
  (∀ t r, att t r → Q t) →
  (∀ t t', Q t → Q t' → Q (t ++ t')) →
  Q t.
Proof. intros Hretry Hatt Happ. induction Hretry; eauto. Qed.

Lemma outcome_snoc (t : list event) (ev : event) : outcome (t ++ [ev]) = returned ev.
Proof. unfold outcome. by rewrite last_snoc. Qed.

Lemma outcome_app (t t' : list event) : t' ≠ [] → outcome (t ++ t') = outcome t'.
Proof.
  intros Hne. unfold outcome. rewrite last_app.
  destruct (last t') eqn:Hlast; [done |]. by apply last_None in Hlast.
Qed.

(** What every retried operation of the driver has in common. *)
Lemma retries_outcome {S : Type} (att : list event → S * option error → Prop)
    retriable n t r :
  (∀ t r, att t r → attempt_shape t r.2) →
  retries att retriable n t r →
  outcome t = r.2
  ∧ 1 ≤ length (calls_of is_nasclient_Get t) ≤ n
  ∧ (∀ e, r.2 = Some e → retriable e = true →
       length (calls_of is_nasclient_Get t) = n)
  ∧ Forall (λ ev, ∀ e, returned ev = Some e → retriable e = true) (removelast t).
Proof.
  intros Hshape. induction 1 as [n t s Ha | n t s e Ha He | t s e Ha He
                                | n t s e t' r Ha He Hrest IH].
  1-3: destruct (Hshape _ _ Ha) as (t0 & ev & -> & Hquiet & Hret & Hget);
    cbn [snd] in *; rewrite outcome_snoc, removelast_last, Hget;
    (split; [done |]); (split; [lia |]); (split; [intros; congruence || done |]);
    eapply Forall_impl; [done | by intros ev' -> ?].
  destruct (Hshape _ _ Ha) as (t0 & ev & -> & Hquiet & Hret & Hget).
  destruct IH as (Hout & Hbound & Hfull & Hearly). cbn [snd] in *.
  assert (t' ≠ []) as Hne.
  { intros ->. cbn in Hbound. lia. }
  rewrite outcome_app by done. unfold calls_of in *.
  rewrite filter_app, length_app, Hget.
  split; [done |]. split; [lia |]. split.
  - intros e' He' Hr. rewrite (Hfull e' He' Hr). lia.
  - rewrite removelast_app by done. apply Forall_app. split; [| done].
    apply Forall_app. split.
    + eapply Forall_impl; [done | by intros ev' -> ?].
    + constructor; [| done]. intros e'. rewrite Hret. by intros [= <-].
Qed.

Lemma avoids_weaken {A} (bad bad' : ∀ X, call X → bool) (p : Prog call A) :
  (∀ X (c : call X), bad' X c = true → bad X c = true) →
  avoids bad p → avoids bad' p.
Proof.
  intros Hsub. induction p as [a | X c k IH]; cbn [avoids]; [done |].
  intros [Hc Hk]. split; [| by intros x; apply IH].
  destruct (bad' X c) eqn:Hbad'; [| done]. apply Hsub in Hbad'. congruence.
Qed.

Lemma returns_bind {A B} (Q : A → Prop) (P : B → Prop)
    (p : Prog call A) (f : A → Prog call B) :
  returns Q p → (∀ a, Q a → returns P (f a)) → returns P (bind p f).
Proof.
  intros Hp Hf. induction p as [a | X c k IH]; cbn [bind returns] in *; [by apply Hf |].
  intros x. by apply IH.
Qed.

Lemma returns_anything {A} (p : Prog call A) : returns (λ _, True) p.
Proof. by induction p as [a | X c k IH]; cbn [returns]. Qed.

Lemma returns_run `{Collaborators W} {A} (P : A → Prop) (p : Prog call A) (w : W) :
  returns P p → P (run_call p w).1.1.
Proof.
  unfold run_call. revert w. induction p as [a | X c k IH]; intros w Hp; [done |].
  rewrite run_call_Do. destruct (exec c w) as [x w1].
  specialize (IH x w1 (Hp x)). by destruct (run exec_ev (k x) w1) as [[a w2] t2].
Qed.

Lemma projected_writes_any (prev : option event) (t : list event) :
  projected_writes None t → projected_writes prev t.
Proof.
  destruct t as [| e t]; [done |]. cbn [projected_writes].
  intros [Hw Ht]. split; [| done]. intros spec Hspec. by specialize (Hw spec Hspec).
Qed.

Lemma projected_writes_app (prev : option event) (t t' : list event) :
  projected_writes prev t → projected_writes None t' →
  projected_writes prev (t ++ t').
Proof.
  revert prev. induction t as [| e t IH]; intros prev Ht Ht'; cbn [app].
  - by apply projected_writes_any.
  - destruct Ht as [Hw Ht]. split; [done |]. by apply IH.
Qed.

Section retried.
Context `{Collaborators W}.

Local Ltac shape t0 ev :=
  exists t0, ev; split; [done |]; split; [by repeat constructor |]; by split.

(** *** Shutdown *)

Lemma Shutdown_avoids : avoids not_of_Shutdown Shutdown.
Proof.
  unfold Shutdown, RetryOnConflict. apply avoids_bind.
  - apply avoids_OnError. intros []. cbn [bind perform avoids].
    split; [done |]. intros [e |]; [done |]. cbn [bind perform avoids].
    split; [done |]. by intros err.
  - by intros [[] err].
Qed.

(** X1. [Shutdown] only refreshes the record and writes the status NotReady:
    on no path does it call the device state, write a spec or write another
    status.  What it returns is what its last call returned; it refreshes at
    least once and at most [DefaultRetry] times, gives up on a conflict error
    only when this budget is used up, and goes on after an error only if the
    error is a conflict. *)
Theorem Shutdown_marks_NotReady (w : W) :
  avoids not_of_Shutdown Shutdown
  ∧ let '(r, _, t) := run_call Shutdown w in
    outcome t = r
    ∧ 1 ≤ length (calls_of is_nasclient_Get t) ≤ DefaultRetry
    ∧ (∀ e, r = Some e → IsConflict e = true →
         length (calls_of is_nasclient_Get t) = DefaultRetry)
    ∧ Forall (λ ev, ∀ e, returned ev = Some e → IsConflict e = true) (removelast t).
Proof.
  split; [apply Shutdown_avoids |].
  unfold run_call, Shutdown, RetryOnConflict, DefaultRetry. rewrite run_bind.
  match goal with
  | |- context [run exec_ev (OnError 5 IsConflict ?fn tt None) w] =>
      assert (∀ s (w0 : W),
        attempt_shape (run exec_ev (fn s) w0).2 (run exec_ev (fn s) w0).1.1.2)
        as Hattempt;
      [| pose proof (retries_outcome _ _ _ _ _ (λ t r Ha, Ha)
                       (OnError_retries (λ t r, attempt_shape t r.2) IsConflict fn
                          Hattempt 4 tt None w)) as Hout]
  end.
  - intros [] w0. cbv beta. call_step.
    destruct (Get w0) as [[e |] w1].
    { cbn [run fst snd]. shape (@nil event) (Ev nasclient_Get (Some e)). }
    call_step. destruct (UpdateStatus _ w1) as [err w2]. cbn [run fst snd].
    shape [Ev nasclient_Get None]
          (Ev (nasclient_UpdateStatus NodeAllocationStateStatusNotReady) err).
  - destruct (run exec_ev (OnError 5 _ _ _ _) w) as [[[[] err] w1] t1].
    cbn [run fst snd] in *. by rewrite (right_id_L [] (++)).
Qed.

(** *** Unprepare *)

Lemma Unprepare_avoids (claimUID : string) :
  avoids (not_of_Unprepare claimUID) (Unprepare claimUID).
Proof.
  unfold Unprepare, RetryOnConflict. apply avoids_bind.
  - apply avoids_OnError. intros []. unfold Unprepare_closure.
    cbn [bind perform avoids not_of_Unprepare].
    split; [done |]. intros [e |]; [done |]. cbn [bind perform avoids not_of_Unprepare].
    split; [by rewrite String.eqb_refl |]. intros [e |]; [done |].
    cbn [bind perform avoids not_of_Unprepare].
    split; [done |]. intros spec. split; [done |]. by intros [e |].
  - by intros [[] [e |]].
Qed.

Lemma Unprepare_closure_attempt (claimUID : string) (u : unit) (w : W) :
  Unprepare_attempt (run exec_ev (Unprepare_closure claimUID u) w).2
    (run exec_ev (Unprepare_closure claimUID u) w).1.1.
Proof.
  unfold Unprepare_closure, Unprepare_attempt. call_step.
  destruct (Get w) as [[e |] w1].
  { cbn [run fst snd]. split; [shape (@nil event) (Ev nasclient_Get (Some e)) | done]. }
  call_step. destruct (Unprepare_ claimUID w1) as [[e |] w2].
  { cbn [run fst snd]. split; [| done].
    shape [Ev nasclient_Get None] (Ev (state_Unprepare claimUID) (Some e)). }
  call_step. destruct (GetUpdatedSpec w2) as [spec w3]. call_step.
  destruct (Update spec w3) as [err w4].
  assert (∀ err' : option error,
    (if err' is Some e then Ret (tt, Some e) else Ret (tt, None))
    = (Ret (tt, err') : Prog call (unit * option error))) as -> by (by intros [e |]).
  cbn [run fst snd]. split; [| split; [done |]].
  - shape [Ev nasclient_Get None; Ev (state_Unprepare claimUID) None;
           Ev state_GetUpdatedSpec spec] (Ev (nasclient_Update spec) err).
  - cbn; repeat split; try done; by intros ? [= <-].
Qed.

(** X2. [Unprepare claimUID] refreshes, releases [claimUID] and no other
    claim, and writes; on no path does it reserve, list, watch or touch the
    mutex.  What it returns is what its last call returned; it refreshes at
    least once and at most [DefaultRetry] times, gives up on a conflict error
    only when this budget is used up, and goes on after an error only if the
    error is a conflict.  It writes once for every release that succeeded and
    never after a release that failed. *)
Theorem Unprepare_outcome (claimUID : string) (w : W) :
  avoids (not_of_Unprepare claimUID) (Unprepare claimUID)
  ∧ let '(r, _, t) := run_call (Unprepare claimUID) w in
    outcome t = r
    ∧ 1 ≤ length (calls_of is_nasclient_Get t) ≤ DefaultRetry
    ∧ (∀ e, r = Some e → IsConflict e = true →
         length (calls_of is_nasclient_Get t) = DefaultRetry)
    ∧ Forall (λ ev, ∀ e, returned ev = Some e → IsConflict e = true) (removelast t)
    ∧ length (update_results t) + length (filter is_Some (unprepare_results t))
      = length (unprepare_results t).
Proof.
  split; [apply Unprepare_avoids |].
  unfold run_call, Unprepare, RetryOnConflict, DefaultRetry. rewrite run_bind.
  pose proof (OnError_retries Unprepare_attempt IsConflict
                (Unprepare_closure claimUID)
                (Unprepare_closure_attempt claimUID) 4 tt None w) as Hretry.
  pose proof (retries_outcome _ _ _ _ _ (λ t r Ha, proj1 Ha) Hretry) as Hout.
  pose proof (retries_closed _ _
    (λ t, length (update_results t) + length (filter is_Some (unprepare_results t))
          = length (unprepare_results t)) _ _ _ Hretry) as Hcount.
  cbv beta in Hcount. specialize (Hcount (λ t r Ha, proj1 (proj2 Ha))).
  specialize (Hcount ltac:(intros t t' Ht Ht'; unfold update_results, unprepare_results in *;
    rewrite !omap_app, filter_app, !length_app; lia)).
  destruct (run exec_ev (OnError 5 _ _ _ _) w) as [[[[] [e |]] w1] t1];
    cbn [run fst snd] in *; rewrite (right_id_L [] (++));
    destruct Hout as (? & ? & ? & ?); repeat split; try done; lia.
Qed.

(** *** Prepare *)

Lemma Prepare_avoids (claimUID : string) :
  avoids (not_of_Prepare claimUID) (Prepare claimUID).
Proof.
  unfold Prepare, RetryOnConflict. apply avoids_bind.
  - apply avoids_OnError. intros prepared. unfold Prepare_closure.
    cbn [bind perform avoids not_of_Prepare].
    split; [done |]. intros [e |]; [done |]. cbn [bind perform avoids not_of_Prepare].
    split; [done |]. intros nas. split; [by rewrite String.eqb_refl |].
    intros [prepared' [e |]]; [done |]. cbn [bind perform avoids not_of_Prepare].
    split; [done |]. intros spec. split; [done |]. by intros [e |].
  - by intros [prepared [e |]].
Qed.

Lemma Prepare_closure_attempt (claimUID : string) (prepared : list string) (w : W) :
  Prepare_attempt (run exec_ev (Prepare_closure claimUID prepared) w).2
    (run exec_ev (Prepare_closure claimUID prepared) w).1.1.
Proof.
  unfold Prepare_closure, Prepare_attempt. call_step.
  destruct (Get w) as [[e |] w1].
  { cbn [run fst snd]. split; [shape (@nil event) (Ev nasclient_Get (Some e)) | done]. }
  call_step. call_step.
  destruct (Prepare_ claimUID _ w1) as [[prepared' [e |]] w2].
  { cbn [run fst snd]. split; [| done].
    shape [Ev nasclient_Get None; Ev load_nascrd (nascrd w1)]
          (Ev (state_Prepare claimUID
                 (go_index (AllocatedClaims (Spec (nascrd w1))) claimUID))
              (prepared', Some e)). }
  call_step. destruct (GetUpdatedSpec w2) as [spec w3]. call_step.
  destruct (Update spec w3) as [err w4].
  assert (∀ err' : option error,
    (if err' is Some e then Ret (prepared', Some e) else Ret (prepared', None))
    = (Ret (prepared', err') : Prog call (list string * option error))) as ->
    by (by intros [e |]).
  cbn [run fst snd]. split; [| split; [done |]; split; [| done]].
  - shape [Ev nasclient_Get None; Ev load_nascrd (nascrd w1);
           Ev (state_Prepare claimUID
                 (go_index (AllocatedClaims (Spec (nascrd w1))) claimUID))
              (prepared', None);
           Ev state_GetUpdatedSpec spec] (Ev (nasclient_Update spec) err).
  - cbn; repeat split; try done; by intros ? [= <-].
Qed.

Lemma Prepare_retries_devices n t r :
  retries Prepare_attempt IsConflict n t r →
  r.2 = None → last (prepare_results t) = Some (r.1, None).
Proof.
  induction 1 as [n t s Ha | n t s e Ha He | t s e Ha He
                 | n t s e t' r Ha He Hrest IH]; cbn [fst snd]; try done.
  - intros _. by apply Ha.
  - intros Hnone. unfold prepare_results in *. rewrite omap_app, last_app.
    by rewrite (IH Hnone).
Qed.

(** X3. [Prepare claimUID] refreshes, reads the mirror, reserves for
    [claimUID] and for no other claim, and writes; on no path does it release,
    list, watch or touch the mutex.  The error it returns is the one its last
    call returned; it refreshes at least once and at most [DefaultRetry] times,
    gives up on a conflict error only when this budget is used up, and goes on
    after an error only if the error is a conflict.  On success the device
    list is the one that the last call of the device state's [Prepare]
    returned; with an error the list is nil.  It writes once for every
    reservation call that succeeded and never after one that failed. *)
Theorem Prepare_outcome (claimUID : string) (w : W) :
  avoids (not_of_Prepare claimUID) (Prepare claimUID)
  ∧ let '(r, _, t) := run_call (Prepare claimUID) w in
    outcome t = r.2
    ∧ 1 ≤ length (calls_of is_nasclient_Get t) ≤ DefaultRetry
    ∧ (∀ e, r.2 = Some e → IsConflict e = true →
         length (calls_of is_nasclient_Get t) = DefaultRetry)
    ∧ Forall (λ ev, ∀ e, returned ev = Some e → IsConflict e = true) (removelast t)
    ∧ (r.2 = None → last (prepare_results t) = Some (r.1, None))
    ∧ (r.2 ≠ None → r.1 = [])
    ∧ length (update_results t)
      + length (filter (λ x, is_Some x.2) (prepare_results t))
      = length (prepare_results t).
Proof.
  split; [apply Prepare_avoids |].
  unfold run_call, Prepare, RetryOnConflict, DefaultRetry. rewrite run_bind.
  pose proof (OnError_retries Prepare_attempt IsConflict
                (Prepare_closure claimUID)
                (Prepare_closure_attempt claimUID) 4 [] None w) as Hretry.
  pose proof (retries_outcome _ _ _ _ _ (λ t r Ha, proj1 Ha) Hretry) as Hout.
  pose proof (Prepare_retries_devices _ _ _ Hretry) as Hdev.
  pose proof (retries_closed _ _
    (λ t, length (update_results t)
          + length (filter (λ x, is_Some x.2) (prepare_results t))
          = length (prepare_results t)) _ _ _ Hretry) as Hcount.
  cbv beta in Hcount. specialize (Hcount (λ t r Ha, proj1 (proj2 Ha))).
  specialize (Hcount ltac:(intros t t' Ht Ht'; unfold update_results, prepare_results in *;
    rewrite !omap_app, filter_app, !length_app; lia)).
  destruct (run exec_ev (OnError 5 _ _ _ _) w) as [[[prepared [e |]] w1] t1];
    cbn [run fst snd] in *; rewrite (right_id_L [] (++));
    destruct Hout as (? & ? & ? & ?); repeat split; try done; lia.
Qed.

End retried.

Section request_lock.
Context `{Collaborators W}.

(** *** Every write carries the projection of the device state *)

Lemma retries_projected_writes {S} (att : list event → S * option error → Prop)
    retriable n t r :
  (∀ t r, att t r → projected_writes None t) →
  retries att retriable n t r → projected_writes None t.
Proof.
  intros Hatt Hretry.
  apply (retries_closed att retriable (projected_writes None) n t r Hretry Hatt).
  intros t1 t2 Ht1 Ht2. by apply projected_writes_app.
Qed.

Lemma NewDriver_closure_projected (d : option driver) (w : W) :
  projected_writes None (run exec_ev (NewDriver_closure d) w).2.
Proof.
  unfold NewDriver_closure. call_step.
  destruct (GetOrCreate w) as [[e |] w1]; [done |].
  call_step. destruct (UpdateStatus _ w1) as [[e |] w2]; [done |].
  call_step. destruct (InitDeviceState w2) as [[e |] w3]; [done |].
  call_step. destruct (GetUpdatedSpec w3) as [spec w4].
  call_step. destruct (Update spec w4) as [[e |] w5].
  { cbn; repeat split; try done; by intros ? [= <-]. }
  call_step. destruct (UpdateStatus _ w5) as [[e |] w6];
    cbn; repeat split; try done; by intros ? [= <-].
Qed.

(** X4. The driver never writes a spec of its own making: in [NewDriver],
    [Prepare] and [Unprepare], whatever the collaborators answer and however
    often the operation is retried, every call of the client's [Update]
    comes right after a call of the device state's [GetUpdatedSpec] and
    writes the spec that this call returned. *)
Theorem Update_writes_GetUpdatedSpec (w : W) :
  projected_writes None (run_call NewDriver w).2
  ∧ (∀ claimUID, projected_writes None (run_call (Prepare claimUID) w).2)
  ∧ (∀ claimUID, projected_writes None (run_call (Unprepare claimUID) w).2).
Proof.
  unfold run_call, NewDriver, Prepare, Unprepare, RetryOnConflict, DefaultRetry.
  split; [| split; intros claimUID]; rewrite run_bind.
  - pose proof (retries_projected_writes _ _ _ _ _ (λ t r Ha, Ha)
      (OnError_retries (λ t _, projected_writes None t) IsConflict NewDriver_closure
         NewDriver_closure_projected 4 None None w)) as Hwrites.
    destruct (run exec_ev (OnError 5 _ _ _ _) w) as [[[d [e |]] w1] t1];
      cbn [fst snd] in Hwrites.
    + cbn [run fst snd]. by rewrite (right_id_L [] (++)).
    + call_step. cbn [run fst snd]. by apply projected_writes_app.
  - pose proof (retries_projected_writes _ _ _ _ _ (λ t r Ha, proj1 (proj2 (proj2 Ha)))
      (OnError_retries Prepare_attempt IsConflict (Prepare_closure claimUID)
         (Prepare_closure_attempt claimUID) 4 [] None w)) as Hwrites.
    destruct (run exec_ev (OnError 5 _ _ _ _) w) as [[[prepared [e |]] w1] t1];
      cbn [run fst snd] in *; by rewrite (right_id_L [] (++)).
  - pose proof (retries_projected_writes _ _ _ _ _ (λ t r Ha, proj2 (proj2 Ha))
      (OnError_retries Unprepare_attempt IsConflict (Unprepare_closure claimUID)
         (Unprepare_closure_attempt claimUID) 4 tt None w)) as Hwrites.
    destruct (run exec_ev (OnError 5 _ _ _ _) w) as [[[[] [e |]] w1] t1];
      cbn [run fst snd] in *; by rewrite (right_id_L [] (++)).
Qed.

(** *** NodePrepareResource *)

Lemma IsPrepared_avoids_mutex (claimUID : string) :
  avoids is_mutex (IsPrepared claimUID).
Proof.
  unfold IsPrepared. cbn [bind perform avoids].
  split; [done |]. intros [e |]; [done |]. cbn [bind perform avoids].
  split; [done |]. intros nas.
  destruct (PreparedClaims (Spec nas) !! claimUID); [| done].
  cbn [bind perform avoids]. by split.
Qed.

Lemma Prepare_avoids_mutex (claimUID : string) :
  avoids is_mutex (Prepare claimUID).
Proof.
  apply (avoids_weaken (not_of_Prepare claimUID)); [| apply Prepare_avoids].
  by intros X [].
Qed.

(** X5. [NodePrepareResource] holds the driver's mutex for the whole request,
    whatever the collaborators answer: its first call takes the mutex, its
    last call releases it, also when the request fails, and between the two
    the mutex is not touched.  It answers with a response and no error, or
    with no response and one of its two wrapped errors. *)
Theorem NodePrepareResource_holds_mutex (req : NodePrepareResourceRequest) (w : W) :
  let '(r, _, t) := run_call (NodePrepareResource req) w in
  (∃ t', t = Ev mu_Lock tt :: t' ++ [Ev mu_Unlock tt]
         ∧ Forall (λ e, marked is_mutex e = false) t')
  ∧ NodePrepareResource_result (ClaimUid req) r.
Proof.
  unfold run_call, NodePrepareResource. call_step.
  rewrite run_bind.
  match goal with
  | |- context [run exec_ev ?p w] =>
      assert (avoids is_mutex p) as Havoids;
      [| assert (returns (NodePrepareResource_result (ClaimUid req)) p) as Hreturns;
         [| pose proof (avoids_run is_mutex p w Havoids) as Htrace;
            pose proof (returns_run _ p w Hreturns) as Hresult;
            unfold run_call in Htrace, Hresult;
            destruct (run exec_ev p w) as [[r w1] t1] ] ]
  end.
  - apply avoids_bind; [apply IsPrepared_avoids_mutex |].
    intros [[isPrepared prepared] [e |]]; [done |]. destruct isPrepared; [done |].
    apply avoids_bind; [apply Prepare_avoids_mutex |]. by intros [prepared' [e |]].
  - apply (returns_bind (λ _, True)); [apply returns_anything |].
    intros [[isPrepared prepared] [e |]] _.
    { right. left. by exists e. }
    destruct isPrepared; [left; by eexists |].
    apply (returns_bind (λ _, True)); [apply returns_anything |].
    intros [prepared' [e |]] _; [right; right; by exists e | left; by eexists].
  - call_step. cbn [run fst snd] in *. split; [| done]. by exists t1.
Qed.

(** X6. When the refresh of the record fails, [NodePrepareResource] does
    nothing else: it returns the refresh's error wrapped, without a response,
    and between taking and releasing the mutex its only call is the failed
    [Get]; the device state and the cache are not asked. *)
Theorem NodePrepareResource_refresh_fails (req : NodePrepareResourceRequest)
    (w w1 : W) (e : error) :
  Get w = (Some e, w1) →
  run_call (NodePrepareResource req) w
  = ((None, Some (Errorw "error checking if claim is already prepared: %w" [] e)),
     w1, [Ev mu_Lock tt; Ev nasclient_Get (Some e); Ev mu_Unlock tt]).
Proof.
  intros Hget. unfold run_call, NodePrepareResource, IsPrepared.
  call_step. call_step. rewrite Hget. call_step. done.
Qed.

End request_lock.

Lemma NodePrepareResource_refresh_fails_witness :
  let w := Model.fresh "node-1" in
  Get w = (Some Model.not_found, w)
  ∧ run_call (NodePrepareResource {| ClaimUid := "claim-1" |}) w
    = ((None, Some (Errorw "error checking if claim is already prepared: %w" []
                      Model.not_found)),
       w, [Ev mu_Lock tt; Ev nasclient_Get (Some Model.not_found); Ev mu_Unlock tt]).
Proof.
  intros w. split; [vm_compute; reflexivity |].
  apply (NodePrepareResource_refresh_fails _ w w Model.not_found).
  vm_compute. reflexivity.
Defined.

(** ** The reconciliation loop's own calls *)

Lemma main_events_tagged (t : list (nat * event)) :
  main_events ((λ ie, UnitEv ie.1 ie.2) <$> t) = [].
Proof. unfold main_events. by induction t as [| [i e] t IH]; csimpl. Qed.

Lemma main_events_app (t t' : list pass_event) :
  main_events (t ++ t') = main_events t ++ main_events t'.
Proof. unfold main_events. by rewrite omap_app. Qed.

Lemma passes_app (t t' : list pass_event) : passes (t ++ t') = passes t ++ passes t'.
Proof. unfold passes. by rewrite omap_app. Qed.

Lemma unit_events_app (t t' : list pass_event) :
  unit_events (t ++ t') = unit_events t ++ unit_events t'.
Proof. unfold unit_events. by rewrite omap_app. Qed.

Lemma pass_avoids_bind {A B} bad_main bad_unit
    (p : Prog pass_call A) (f : A → Prog pass_call B) :
  pass_avoids bad_main bad_unit p → (∀ a, pass_avoids bad_main bad_unit (f a)) →
  pass_avoids bad_main bad_unit (bind p f).
Proof.
  intros Hp Hf. induction p as [a | X c k IH]; cbn [bind pass_avoids] in *; [done |].
  destruct Hp as [Hc Hk]. split; [done |]. intros x. by apply IH.
Qed.

Lemma settled_orphaned (nas : NodeAllocationState) : settled nas ↔ orphaned nas = [].
Proof.
  destruct (orphaned_spec nas) as [_ Hin]. split.
  - intros Hsettled. destruct (orphaned nas) as [| claimUID l] eqn:Hl; [done |].
    destruct (proj1 (Hin claimUID) ltac:(left)) as [Hp Ha].
    apply Hsettled in Hp. rewrite Ha in Hp. by destruct Hp.
  - intros Hnil claimUID Hp.
    destruct (AllocatedClaims (Spec nas) !! claimUID) eqn:Ha; [done |].
    assert (claimUID ∈ orphaned nas) as Hc by (by apply Hin).
    rewrite Hnil in Hc. by apply elem_of_nil in Hc.
Qed.

Lemma unprepare_claim_avoids (claimUID : string) :
  avoids not_of_cleanup (unprepare_claim claimUID).
Proof.
  unfold unprepare_claim. apply avoids_bind; [| by intros [e |]].
  apply (avoids_weaken (not_of_Unprepare claimUID)); [| apply Unprepare_avoids].
  by intros X [].
Qed.

Lemma unprepare_claim_calls (claimUID : string) :
  ∃ k, unprepare_claim claimUID = Do nasclient_Get k.
Proof.
  unfold unprepare_claim, Unprepare, RetryOnConflict, DefaultRetry.
  rewrite OnError_unfold. unfold Unprepare_closure at 1. cbn [bind perform].
  by eexists.
Qed.

Section loop.
Context `{Collaborators W}.

Lemma run_schedule_nil sched (w : W) : run_schedule sched [] w = ([], w, []).
Proof.
  induction sched as [| i sched IH]; [done |]. cbn [run_schedule].
  unfold pool_step. by rewrite lookup_nil, IH.
Qed.

Lemma run_pool_nil sched (w : W) : run_pool sched [] w = ([], w, []).
Proof. unfold run_pool. by rewrite run_schedule_nil. Qed.

Lemma run_pool_calls sched p ts (w : W) k :
  p = Do nasclient_Get k → (run_pool sched (p :: ts) w).2 ≠ [].
Proof.
  intros -> Hnil.
  pose proof (run_pool_complete sched (Do nasclient_Get k :: ts) w) as Hc.
  destruct (run_pool sched (Do nasclient_Get k :: ts) w) as [[rs w'] t].
  cbn [snd] in Hnil. subst t. destruct Hc as [_ Hc].
  destruct (Hc 0 _ eq_refl) as (r & _ & Hfin). inversion Hfin.
Qed.

Lemma pass_avoids_run {A} bad_main bad_unit (p : Prog pass_call A)
    (s : W * list (list nat)) :
  pass_avoids bad_main bad_unit p →
  Forall (λ e, marked bad_main e = false) (main_events (run exec_pass p s).2)
  ∧ Forall (λ ie, marked bad_unit ie.2 = false) (unit_events (run exec_pass p s).2).
Proof.
  revert s. induction p as [a | X c k IH]; intros s Hp; cbn [run].
  { split; constructor. }
  destruct Hp as [Hc Hk].
  destruct (exec_pass X c s) as [[x s1] t1] eqn:Hexec.
  specialize (IH x s1 (Hk x)).
  destruct (run exec_pass (k x) s1) as [[a s2] t2]. cbn [fst snd] in *.
  rewrite main_events_app, unit_events_app, !Forall_app.
  destruct IH as [IHm IHu]. repeat split; try done.
  - destruct c as [X c | nas | units]; cbn [exec_pass] in Hexec.
    + destruct (exec c s.1) as [x' w']. injection Hexec as <- <- <-.
      by repeat constructor.
    + injection Hexec as <- <- <-. constructor.
    + destruct (run_pool _ _ _) as [[rs w'] t]. injection Hexec as <- <- <-.
      rewrite main_events_tagged. constructor.
  - destruct c as [X c | nas | units]; cbn [exec_pass] in Hexec.
    + destruct (exec c s.1) as [x' w']. injection Hexec as <- <- <-. constructor.
    + injection Hexec as <- <- <-. constructor.
    + pose proof (run_pool_avoids bad_unit (hd [] s.2) (units.*2) s.1) as Hpool.
      destruct (run_pool _ _ _) as [[rs w'] t]. injection Hexec as <- <- <-.
      rewrite unit_events_tagged. apply Hpool.
      apply Forall_fmap. eapply Forall_impl; [exact Hc | done].
Qed.

Lemma cleanupStaleState_avoids nas :
  pass_avoids not_of_loop not_of_cleanup (cleanupStaleState nas).
Proof.
  unfold cleanupStaleState, cleanupClaimAllocations, cleanupCDIFiles,
    cleanupMpsControlDaemonArtifacts.
  cbn [bind perform pass_avoids]. split; [done |]. intros []. split.
  - rewrite !fmap_nil, !(right_id_L [] (++)).
    apply Forall_fmap, Forall_fmap, Forall_forall. intros c _.
    apply unprepare_claim_avoids.
  - intros reports. by case_decide.
Qed.

Lemma range_ResultChan_avoids events :
  pass_avoids not_of_loop not_of_cleanup (range_ResultChan events).
Proof.
  induction events as [| event events IH]; [done |]. cbn [range_ResultChan].
  case_decide; [done |]. destruct (Object_ event) as [nas |]; [| done].
  apply pass_avoids_bind; [apply cleanupStaleState_avoids |]. by intros [e |].
Qed.

Lemma cleanupStaleStateOnce_avoids :
  pass_avoids not_of_loop not_of_cleanup cleanupStaleStateOnce.
Proof.
  unfold cleanupStaleStateOnce. cbn [bind perform pass_avoids].
  split; [done |]. intros d_nascrd. split; [done |]. intros [list [e |]]; [done |].
  destruct (Items list) as [| nas [| nas' items]]; [done | | done].
  apply pass_avoids_bind; [apply cleanupStaleState_avoids |]. by intros [e |].
Qed.

Lemma cleanupStaleStateContinuously_avoids rv prev :
  pass_avoids not_of_loop not_of_cleanup (cleanupStaleStateContinuously rv prev).
Proof.
  unfold cleanupStaleStateContinuously. cbn [bind perform pass_avoids].
  split; [done |]. intros d_nascrd. split; [done |]. intros [watcher [e |]]; [done |].
  apply pass_avoids_bind; [apply range_ResultChan_avoids |].
  intros result. cbn [bind perform pass_avoids]. by split.
Qed.

Lemma CleanupStaleStateContinuously_avoids turns :
  pass_avoids not_of_loop not_of_cleanup (CleanupStaleStateContinuously turns).
Proof.
  induction turns as [| n IH]; [done |]. cbn [CleanupStaleStateContinuously].
  apply pass_avoids_bind; [| done]. unfold CleanupStaleStateContinuously_body.
  apply pass_avoids_bind; [apply cleanupStaleStateOnce_avoids |]. intros [rv err].
  apply pass_avoids_bind; [apply cleanupStaleStateContinuously_avoids |].
  intros [e |]; [| done]. cbn [perform pass_avoids]. by split.
Qed.

(** The pass makes no call on the loop's own goroutine. *)
Lemma cleanupStaleState_main nas (s : W * list (list nat)) :
  main_events (run exec_pass (cleanupStaleState nas) s).2 = [].
Proof.
  destruct s as [w scheds].
  pose proof (run_cleanupStaleState nas scheds w) as Hrun. unfold run_pass in Hrun.
  rewrite Hrun. destruct (run_pool _ _ _) as [[rs w'] t]. cbn [snd].
  unfold main_events. cbn [omap list_omap]. apply main_events_tagged.
Qed.

Lemma range_ResultChan_main events (s : W * list (list nat)) :
  main_events (run exec_pass (range_ResultChan events) s).2 = [].
Proof.
  revert s. induction events as [| event events IH]; intros s; [done |].
  cbn [range_ResultChan]. case_decide; [apply IH |].
  destruct (Object_ event) as [nas |]; [| done]. rewrite run_bind.
  pose proof (cleanupStaleState_main nas s) as Hpass.
  destruct (run exec_pass (cleanupStaleState nas) s) as [[[e |] s1] t1];
    cbn [run fst snd] in *.
  - by rewrite (right_id_L [] (++)).
  - specialize (IH s1). destruct (run exec_pass (range_ResultChan events) s1)
      as [[r s2] t2]. cbn [snd] in *. by rewrite main_events_app, Hpass, IH.
Qed.

(** X7. [cleanupStaleStateOnce] lists once, without watching and selecting
    the driver's own record by name, and makes no other call of its own.  It
    runs a cleanup pass only when the list succeeded with exactly one item,
    and then one pass, on that item.  A failed list is returned wrapped and an
    item count other than one is an error that carries the count; the error of
    the pass is returned as it is.  The version token of the list is returned
    only without an error. *)
Theorem cleanupStaleStateOnce_outcome scheds (w : W) :
  let '((rv, err), _, t) := run_pass cleanupStaleStateOnce scheds w in
  ∃ list lerr,
    main_events t
    = [Ev load_nascrd (nascrd w);
       Ev (nasclient_List {| Watch := false; OptResourceVersion := "";
                             FieldSelector := "metadata.name=" +:+ Name (nascrd w);
                             TimeoutSeconds := None |}) (list, lerr)]
    ∧ match lerr, Items list with
      | Some e, _ =>
          passes t = [] ∧ rv = ""
          ∧ err = Some (Errorw "error listing allocation state: %w" [] e)
      | None, [nas] =>
          passes t = [nas]
          ∧ (run_pass (cleanupStaleState nas) scheds (List
               {| Watch := false; OptResourceVersion := "";
                  FieldSelector := "metadata.name=" +:+ Name (nascrd w);
                  TimeoutSeconds := None |} w).2).1.1 = err
          ∧ rv = (if err is None then ListResourceVersion list else "")
      | None, items =>
          passes t = [] ∧ rv = ""
          ∧ err = Some (Errorf "unexpected number of allocation state objects from list: %v"
                          [FmtInt (length items)])
      end.
Proof.
  unfold run_pass, cleanupStaleStateOnce.
  cbn [bind perform run exec_pass exec fst snd app].
  destruct (List _ w) as [[lst [e |]] w1] eqn:Hlist; cbn [bind run fst snd app].
  { exists lst, (Some e). by destruct (Items lst). }
  destruct (Items lst) as [| nas [| nas' items]] eqn:Hitems; cbn [bind run app].
  { exists lst, None. by rewrite Hitems. }
  2: { exists lst, None. by rewrite Hitems. }
  rewrite run_bind.
  pose proof (cleanupStaleState_main nas (w1, scheds)) as Hmain.
  pose proof (run_cleanupStaleState nas scheds w1) as Hrun. unfold run_pass in Hrun.
  destruct (run exec_pass (cleanupStaleState nas) (w1, scheds)) as [[err s1] t1]
    eqn:Hpass.
  cbn [snd] in Hmain.
  assert (passes t1 = [nas]) as Hpasses.
  { destruct (run_pool _ _ _) as [[rs w'] t']. injection Hrun as _ _ ->.
    unfold passes. cbn [omap list_omap]. fold (passes ((λ ie, UnitEv ie.1 ie.2) <$> t')).
    by rewrite passes_tagged. }
  destruct err as [e |]; cbn [run fst snd app];
    rewrite ?(right_id_L [] (++)); exists lst, None; rewrite Hitems;
    unfold main_events in *; cbn [omap list_omap];
    rewrite Hmain; (split; [done |]); (split; [| by rewrite Hpass]);
    unfold passes in *; cbn [omap list_omap]; by rewrite Hpasses.
Qed.

(** X8. [cleanupStaleStateContinuously] opens one watch, on the driver's own
    record by name and from the version it was given, with the timeout of
    [CleanupTimeoutSecondsOnError] seconds exactly when it was given a
    previous error.  When the watch cannot be opened the error is returned
    wrapped, no pass runs and no watcher is stopped; when it was opened the
    watcher is stopped once, as the last call, also when the loop over the
    events ends with an error. *)
Theorem cleanupStaleStateContinuously_stops rv prev scheds (w : W) :
  let opts := {| Watch := true; OptResourceVersion := rv;
                 FieldSelector := "metadata.name=" +:+ Name (nascrd w);
                 TimeoutSeconds :=
                   if prev is Some _ then Some (Z.of_nat CleanupTimeoutSecondsOnError)
                   else None |} in
  let '(err, _, t) := run_pass (cleanupStaleStateContinuously rv prev) scheds w in
  ∃ events werr,
    main_events t
    = [Ev load_nascrd (nascrd w); Ev (nasclient_Watch opts) (events, werr)]
      ++ (if werr is Some _ then [] else [Ev watcher_Stop tt])
    ∧ match werr with
      | Some e =>
          passes t = []
          ∧ err = Some (Errorw "error setting up watch to cleanup allocations: %w" [] e)
      | None =>
          last t = Some (MainEv (Ev watcher_Stop tt))
          ∧ passes t `prefix_of` triggers events
      end.
Proof.
  cbv zeta. unfold run_pass, cleanupStaleStateContinuously.
  cbn [bind perform run exec_pass exec fst snd app].
  destruct (OpenWatch _ w) as [[watcher [e |]] w1]; cbn [bind run fst snd app].
  { by exists watcher, (Some e). }
  rewrite run_bind.
  pose proof (range_ResultChan_main watcher (w1, scheds)) as Hmain.
  pose proof (range_ResultChan_passes watcher scheds w1) as Hloop.
  unfold run_pass in Hloop.
  destruct (run exec_pass (range_ResultChan watcher) (w1, scheds)) as [[err s] t1].
  destruct Hloop as (Hpre & _). destruct s as [w2 scheds2].
  cbn [bind perform run exec_pass exec fst snd app] in *.
  exists watcher, None. split; [| split].
  - unfold main_events in *. cbn [omap list_omap]. rewrite omap_app, Hmain. done.
  - rewrite !app_comm_cons. apply last_snoc.
  - unfold passes in *. cbn [omap list_omap]. rewrite omap_app. cbn [omap list_omap].
    by rewrite (right_id_L [] (++)).
Qed.

Lemma loop_calls_app a b (m m' : list event) :
  loop_calls a m → loop_calls b m' → loop_calls (a + b) (m ++ m').
Proof.
  unfold loop_calls, list_options, watch_options, watch_results, sleeps, calls_of.
  intros (Hl & Hlw & Hw & Hwo & Hs & Hp & Hps) (Hl' & Hlw' & Hw' & Hwo' & Hs' & Hp' & Hps').
  rewrite !omap_app, !filter_app, !length_app, !Forall_app.
  repeat split; try done; lia.
Qed.

Lemma cleanupStaleStateOnce_main scheds (w : W) :
  ∃ opts r,
    main_events (run_pass cleanupStaleStateOnce scheds w).2
    = [Ev load_nascrd (nascrd w); Ev (nasclient_List opts) r]
    ∧ Watch opts = false.
Proof.
  unfold run_pass, cleanupStaleStateOnce.
  cbn [bind perform run exec_pass exec fst snd app].
  destruct (List _ w) as [[lst [e |]] w1]; cbn [bind run fst snd app].
  { by eexists _, _. }
  destruct (Items lst) as [| nas [| nas' items]]; cbn [bind run app].
  1, 3: by eexists _, _.
  rewrite run_bind.
  pose proof (cleanupStaleState_main nas (w1, scheds)) as Hmain.
  destruct (run exec_pass (cleanupStaleState nas) (w1, scheds)) as [[[e |] s1] t1];
    cbn [run fst snd app] in *; rewrite ?(right_id_L [] (++));
    eexists _, _; unfold main_events in *; cbn [omap list_omap]; by rewrite Hmain.
Qed.

Lemma cleanupStaleStateContinuously_main rv prev scheds (w : W) :
  ∃ opts r,
    main_events (run_pass (cleanupStaleStateContinuously rv prev) scheds w).2
    = [Ev load_nascrd (nascrd w); Ev (nasclient_Watch opts) r]
      ++ (if r.2 is Some _ then [] else [Ev watcher_Stop tt])
    ∧ loop_watch opts.
Proof.
  unfold run_pass, cleanupStaleStateContinuously.
  cbn [bind perform run exec_pass exec fst snd app].
  assert (∀ opts, Watch opts = true →
    TimeoutSeconds opts
    = (if prev is Some _ then Some (Z.of_nat CleanupTimeoutSecondsOnError) else None) →
    loop_watch opts) as Hopts.
  { intros opts Hwatch Htimeout. split; [done |]. rewrite Htimeout.
    destruct prev; [by right | by left]. }
  destruct (OpenWatch _ w) as [[watcher [e |]] w1]; cbn [bind run fst snd app].
  { eexists _, (watcher, Some e). split; [done |]. by apply Hopts. }
  rewrite run_bind.
  pose proof (range_ResultChan_main watcher (w1, scheds)) as Hmain.
  destruct (run exec_pass (range_ResultChan watcher) (w1, scheds)) as [[err [w2 s]] t1].
  cbn [bind perform run exec_pass exec fst snd app] in *.
  eexists _, (watcher, None). split.
  - unfold main_events in *. cbn [omap list_omap]. by rewrite omap_app, Hmain.
  - by apply Hopts.
Qed.

Lemma CleanupStaleStateContinuously_body_calls scheds (w : W) :
  loop_calls 1 (main_events (run_pass CleanupStaleStateContinuously_body scheds w).2).
Proof.
  unfold run_pass, CleanupStaleStateContinuously_body. rewrite run_bind.
  destruct (cleanupStaleStateOnce_main scheds w) as (lopts & lr & Hones & Hlopts).
  unfold run_pass in Hones.
  destruct (run exec_pass cleanupStaleStateOnce (w, scheds))
    as [[[rv err] [w1 scheds1]] t1].
  rewrite run_bind.
  destruct (cleanupStaleStateContinuously_main rv err scheds1 w1)
    as (wopts & wr & Hwatch & Hwopts).
  unfold run_pass in Hwatch.
  destruct (run exec_pass (cleanupStaleStateContinuously rv err) (w1, scheds1))
    as [[err2 [w2 scheds2]] t2].
  cbn [snd] in Hones, Hwatch.
  assert (∀ r : unit * (W * list (list nat)) * list pass_event,
    main_events (let '(b, s2, t3) := r in (b, s2, t1 ++ let '(b', s3, t4) :=
      (b, s2, t2 ++ t3) in t4)).2 = main_events t1 ++ main_events t2
                                     ++ main_events r.2) as Hmain.
  { intros [[b s2] t3]. cbn [snd]. by rewrite !main_events_app. }
  destruct err2 as [e |]; cbn [perform run exec_pass exec fst snd app];
    rewrite !main_events_app, Hones, Hwatch; destruct wr as [events [e' |]];
    unfold loop_calls; cbn; rewrite ?Forall_singleton, ?Forall_nil;
    split_and!; done || lia.
Qed.

(** X9. The reconciliation loop, for any number of turns, whatever the
    collaborators answer and however the goroutines of its passes are
    scheduled.  Its own goroutine only reads the mirror, lists, watches, stops
    watchers and pauses; the goroutines of its passes only make the calls of
    [Unprepare]: the loop never reserves devices, never writes the status and
    never takes the driver's mutex.  Every turn lists once and opens one
    watch, also after a failed resync; every watcher that was opened is
    stopped; a turn pauses at most once, for
    [CleanupTimeoutSecondsOnError] seconds. *)
Theorem CleanupStaleStateContinuously_turns turns scheds (w : W) :
  let t := (run_pass (CleanupStaleStateContinuously turns) scheds w).2 in
  Forall (λ e, marked not_of_loop e = false) (main_events t)
  ∧ Forall (λ ie, marked not_of_cleanup ie.2 = false) (unit_events t)
  ∧ loop_calls turns (main_events t).
Proof.
  cbv zeta. unfold run_pass.
  pose proof (pass_avoids_run not_of_loop not_of_cleanup _ (w, scheds)
                (CleanupStaleStateContinuously_avoids turns)) as [Hmain Hunits].
  split; [done |]. split; [done |]. clear Hmain Hunits.
  revert scheds w. induction turns as [| n IH]; intros scheds w.
  { unfold loop_calls. cbn. rewrite ?Forall_nil. split_and!; done. }
  cbn [CleanupStaleStateContinuously]. rewrite run_bind.
  pose proof (CleanupStaleStateContinuously_body_calls scheds w) as Hbody.
  unfold run_pass in Hbody.
  destruct (run exec_pass CleanupStaleStateContinuously_body (w, scheds))
    as [[[] [w1 scheds1]] t1].
  specialize (IH scheds1 w1).
  destruct (run exec_pass (CleanupStaleStateContinuously n) (w1, scheds1))
    as [[[] s2] t2].
  cbn [snd] in *. rewrite main_events_app.
  by apply (loop_calls_app 1 n).
Qed.

(** ** Passes that find nothing to do *)

(** X10. A cleanup pass starts no goroutine exactly when the record it was
    given is settled (every prepared claim is still allocated): then the pass
    makes no call at all, leaves the collaborators untouched and returns
    no error; otherwise some goroutine makes a call. *)
Theorem cleanupStaleState_settled nas scheds (w : W) :
  let '(err, s, t) := run_pass (cleanupStaleState nas) scheds w in
  (settled nas ↔ t = [EnterEv nas])
  ∧ (settled nas → err = None ∧ s = (w, tl scheds)).
Proof.
  rewrite run_cleanupStaleState. unfold cleanupClaimAllocations.
  pose proof (settled_orphaned nas) as Hsettled.
  destruct (orphaned nas) as [| claimUID claims] eqn:Horphaned.
  - rewrite fmap_nil, run_pool_nil. cbn. rewrite decide_False by lia.
    split; [| done]. split; [done |]. intros _. by apply Hsettled.
  - rewrite fmap_cons.
    destruct (unprepare_claim_calls claimUID) as [k Hk].
    pose proof (run_pool_calls (hd [] scheds) _ (unprepare_claim <$> claims) w k Hk)
      as Hcalls.
    destruct (run_pool _ _ _) as [[rs w'] t]. cbn [snd] in Hcalls. cbv zeta.
    split; [split |].
    + intros Hnas. by apply Hsettled in Hnas.
    + intros [= Ht]. by destruct t.
    + intros Hnas. by apply Hsettled in Hnas.
Qed.

Lemma cleanupStaleState_settled_run nas (s : W * list (list nat)) :
  settled nas →
  run exec_pass (cleanupStaleState nas) s = (None, (s.1, tl s.2), [EnterEv nas]).
Proof.
  intros Hsettled. destruct s as [w scheds].
  pose proof (run_cleanupStaleState nas scheds w) as Hrun. unfold run_pass in Hrun.
  rewrite Hrun. unfold cleanupClaimAllocations.
  apply settled_orphaned in Hsettled. rewrite Hsettled, fmap_nil, run_pool_nil.
  cbn. by rewrite decide_False by lia.
Qed.

(** X11. A watch stream on which every modification event carries a settled
    record is consumed to its end: the loop runs one pass per modification
    event, none of which starts a goroutine, makes no call, leaves the
    collaborators untouched and returns no error. *)
Theorem range_ResultChan_quiet (events : list Event) scheds (w : W) :
  Forall quiet events →
  run_pass (range_ResultChan events) scheds w
  = (None, (w, drop (length (triggers events)) scheds), EnterEv <$> triggers events).
Proof.
  unfold run_pass. revert scheds.
  induction events as [| event events IH]; intros scheds Hquiet; [done |].
  apply Forall_cons in Hquiet as [Hevent Hevents].
  cbn [range_ResultChan]. unfold triggers. cbn [omap list_omap].
  fold (triggers events).
  destruct (decide (Type_ event ≠ Modified)) as [Hty | Hty].
  - rewrite decide_False by done. by apply IH.
  - apply dec_stable in Hty. rewrite decide_True by done.
    destruct (Hevent Hty) as (nas & Hobj & Hsettled). rewrite Hobj.
    rewrite run_bind, (cleanupStaleState_settled_run nas _ Hsettled).
    cbn [fst snd]. rewrite (IH (tl scheds) Hevents).
    cbn [fmap list_fmap length app].
    destruct scheds; cbn [tail drop]; by rewrite ?drop_nil.
Qed.

(** X12. A cleanup pass starts at most one goroutine per prepared claim of
    the record it was given, and never two for the same claim; when it
    returns an error, the count that the error carries is at least one and at
    most the number of orphaned claims. *)
Theorem cleanupStaleState_error_count nas scheds (w : W) :
  NoDup (orphaned nas)
  ∧ length (cleanupClaimAllocations nas) ≤ size (PreparedClaims (Spec nas))
  ∧ ∀ e, (run_pass (cleanupStaleState nas) scheds w).1.1 = Some e →
      ∃ n, e = Errorf "encountered %v errors" [FmtInt n]
           ∧ 1 ≤ n ≤ length (cleanupClaimAllocations nas).
Proof.
  split; [apply orphaned_spec |]. split.
  - unfold cleanupClaimAllocations, orphaned.
    rewrite length_fmap, <- length_map_to_list,
      <- (length_fmap fst (map_to_list (PreparedClaims (Spec nas)))).
    apply length_filter.
  - rewrite run_cleanupStaleState.
    pose proof (run_pool_complete (hd [] scheds) (cleanupClaimAllocations nas) w) as Hc.
    destruct (run_pool _ _ _) as [[rs w'] t]. destruct Hc as [Hlen _].
    cbn [fst snd]. intros e. case_decide as Hn; [| done].
    intros [= <-]. eexists. split; [done |].
    pose proof (length_filter is_Some rs). lia.
Qed.

End loop.

Lemma range_ResultChan_quiet_witness :
  let nas := {| Name := "node-1"; ResourceVersion := "5";
                Spec := {| AllocatedClaims := <["claim-1" := ["gpu-0"]]> ∅;
                           PreparedClaims := <["claim-1" := ["gpu-0"]]> ∅ |};
                Status := NodeAllocationStateStatusReady |} in
  let events := [ {| Type_ := Added; Object_ := ObjNodeAllocationState nas |};
                  {| Type_ := Modified; Object_ := ObjNodeAllocationState nas |} ] in
  Forall quiet events
  ∧ run_pass (range_ResultChan events) [[0]] (Model.fresh "node-1")
    = (None, (Model.fresh "node-1", []), [EnterEv nas]).
Proof.
  intros nas events.
  assert (Forall quiet events) as Hquiet.
  { repeat constructor; [done |]. intros _. exists nas. split; [done |].
    intros claimUID. cbn. destruct (decide (claimUID = "claim-1")) as [-> | Hne].
    - by rewrite !lookup_insert_eq.
    - by rewrite !lookup_insert_ne. }
  split; [done |].
  apply (range_ResultChan_quiet events [[0]] (Model.fresh "node-1") Hquiet).
Defined.

Section cache.
Context `{Collaborators W}.

(** X13. [IsPrepared claimUID] only reads: it refreshes the record, reads
    the mirror and asks the cache for [claimUID], and on no path does it call
    the device state's [Prepare] or [Unprepare], write the record or touch
    the mutex.  When it answers yes there is no error and the devices are
    what the cache returned for this claim, as the last call; when it answers
    no the cache was not asked and the device list is nil; with an error the
    answer is no. *)
Theorem IsPrepared_reads_only (claimUID : string) (w : W) :
  avoids (not_of_IsPrepared claimUID) (IsPrepared claimUID)
  ∧ let '((isPrepared, prepared, err), _, t) := run_call (IsPrepared claimUID) w in
    (isPrepared = true →
       err = None ∧ last t = Some (Ev (cdi_GetClaimDevices claimUID) prepared))
    ∧ (isPrepared = false →
         prepared = [] ∧ calls_of is_cdi_GetClaimDevices t = [])
    ∧ (err ≠ None → isPrepared = false).
Proof.
  split.
  - unfold IsPrepared. cbn [bind perform avoids].
    split; [done |]. intros [e |]; [done |]. cbn [bind perform avoids].
    split; [done |]. intros nas.
    destruct (PreparedClaims (Spec nas) !! claimUID); [| done].
    cbn [bind perform avoids not_of_IsPrepared]. by rewrite String.eqb_refl.
  - unfold run_call, IsPrepared. call_step.
    destruct (Get w) as [[e |] w1]; [done |].
    call_step. destruct (PreparedClaims (Spec (nascrd w1)) !! claimUID); [| done].
    call_step. by destruct (GetClaimDevices claimUID w1) as [devices w2].
Qed.

End cache.
